(** * barbarian-ultimate: the proxy core of [server.js]

    A shallow embedding of the server's pure cores: the playlist rewrite
    and the id cleaning of [app.get('/api/video/:videoId')], the container
    proxy [app.get('/api/mp4/:filename')], [getVideoDuration],
    [syncMetadata], [loadEmoteMappings] and the chat range handler
    [app.get('/api/chat/:videoId/:startTime/:endTime')].

    JavaScript strings are sequences of UTF-16 code units; a text is a
    [list N] of code units, and [cu] turns a literal into one. *)

From Stdlib Require Import ZArith NArith QArith Qround Ascii String List Bool Lia.
From stdpp Require Import gmap strings list fin_maps sorting.

#[local] Open Scope N_scope.

(** ** Strings *)

Module JsString.

Definition text := list N.

Definition cu (s : string) : text :=
  List.map N_of_ascii (list_ascii_of_string s).

(** ECMAScript LineTerminator: LF, CR, LS, PS. *)
Definition is_line_terminator (c : N) : bool :=
  (c =? 10) || (c =? 13) || (c =? 8232) || (c =? 8233).

(** [s.startsWith(p)] *)
Fixpoint startsWith (p s : text) : bool :=
  match p, s with
  | [], _ => true
  | a :: p', b :: s' => (a =? b) && startsWith p' s'
  | _ :: _, [] => false
  end.

(** [s.endsWith(p)] *)
Definition endsWith (p s : text) : bool :=
  startsWith (rev p) (rev s).

(** The longest prefix of [s] whose code units all satisfy [p]: what a
    greedy [c+] or [c*] over a character class first consumes. *)
Fixpoint span (p : N -> bool) (s : text) : text :=
  match s with
  | [] => []
  | c :: s' => if p c then c :: span p s' else []
  end.

(** Splitting at the code units that satisfy [p]; the pieces are never
    none. *)
Fixpoint split_by (p : N -> bool) (s : text) : list text :=
  match s with
  | [] => [[]]
  | c :: s' =>
      if p c then [] :: split_by p s'
      else match split_by p s' with
           | l :: ls => (c :: l) :: ls
           | [] => [[c]]
           end
  end.

(** [s.split(sep)] for a separator of one code unit. *)
Definition split_on (sep : N) (s : text) : list text :=
  split_by (fun c => c =? sep) s.

(** The lines a multiline regular expression sees: the pieces between
    line terminators. *)
Definition lines (s : text) : list text := split_by is_line_terminator s.

End JsString.

Import JsString.

(** ** Regular expressions

    The expressions of the program use literals, a greedy [+] over a
    character class, [?], sequence, alternation, [^] and [$] under the [m]
    flag, a negative lookahead and one capture group. [run] is the
    backtracking matcher of ECMAScript in continuation-passing style: the
    continuation is the rest of the expression, and a quantifier or an
    alternation moves on to its next choice when the continuation fails.
    A position is the code unit before it ([None] at index 0, which is
    what [^] looks at) and the text from it on. *)

Module Regex.

Inductive re :=
| Lit (w : text)
| Plus1 (p : N -> bool)
| Opt (r : re)
| Seq (r1 r2 : re)
| Alt (r1 r2 : re)
| Bol
| Eol
| NegLook (r : re)
| Group (r : re).

(** The code unit before the position reached after reading [a]. *)
Definition prev_after (prev : option N) (a : text) : option N :=
  match last a with
  | Some c => Some c
  | None => prev
  end.

(** [^] under the [m] flag. *)
Definition at_line_start (prev : option N) : bool :=
  match prev with
  | None => true
  | Some c => is_line_terminator c
  end.

(** [c+] for a class [c]: as many code units as possible first, then one
    less each time the continuation fails, down to one. *)
Fixpoint greedy {R : Type} (p : N -> bool) (prev : option N) (s : text)
    (k : option N -> text -> option R) : option R :=
  match s with
  | c :: s' =>
      if p c then
        match greedy p (Some c) s' k with
        | Some x => Some x
        | None => k (Some c) s'
        end
      else None
  | [] => None
  end.

Fixpoint run (r : re) {R : Type} (prev : option N) (s : text) (cap : option text)
    (k : option N -> text -> option text -> option R) {struct r} : option R :=
  match r with
  | Lit w =>
      if startsWith w s then k (prev_after prev w) (drop (length w) s) cap else None
  | Plus1 p => greedy p prev s (fun prev' s' => k prev' s' cap)
  | Opt r1 =>
      match run r1 prev s cap k with
      | Some x => Some x
      | None => k prev s cap
      end
  | Seq r1 r2 => run r1 prev s cap (fun prev' s' cap' => run r2 prev' s' cap' k)
  | Alt r1 r2 =>
      match run r1 prev s cap k with
      | Some x => Some x
      | None => run r2 prev s cap k
      end
  | Bol => if at_line_start prev then k prev s cap else None
  | Eol =>
      match s with
      | [] => k prev s cap
      | c :: _ => if is_line_terminator c then k prev s cap else None
      end
  | NegLook r1 =>
      match run r1 prev s cap (fun _ _ _ => Some tt) with
      | Some _ => None
      | None => k prev s cap
      end
  | Group r1 =>
      run r1 prev s cap
        (fun prev' s' _ => k prev' s' (Some (take (length s - length s') s)))
  end.

(** The expression tried at one position: the length of the match and
    the text of group 1. *)
Definition exec (r : re) (prev : option N) (s : text) : option (nat * option text) :=
  run r prev s None (fun _ s' cap => Some ((length s - length s')%nat, cap)).

(** A replacement string: text and [$1]. *)
Inductive piece :=
| Text (w : text)
| Group1.

Definition expand (template : list piece) (g : option text) : text :=
  flat_map (fun p => match p with
                     | Text w => w
                     | Group1 => default [] g
                     end) template.

(** [String.prototype.replace] with a global expression.

    A matcher is the expression tried at one position, answering with the
    expanded replacement and the length of the match. [replace_from] is the
    scan of [replace]: at each position not inside an earlier match the
    expression is tried; a match emits the replacement and resumes after
    it, a failure copies one code unit. The expressions of this program
    match at least one code unit. *)
Definition matcher := option N -> text -> option (text * nat).

Definition regex_matcher (r : re) (template : list piece) : matcher := fun prev s =>
  match exec r prev s with
  | Some (len, g) => Some (expand template g, len)
  | None => None
  end.

Fixpoint replace_from (m : matcher) (skip : nat) (prev : option N) (s : text) : text :=
  match s with
  | [] => []
  | c :: s' =>
      match skip with
      | S k => replace_from m k (Some c) s'
      | O =>
          match m prev s with
          | Some (repl, len) => repl ++ replace_from m (Nat.pred len) (Some c) s'
          | None => c :: replace_from m 0 (Some c) s'
          end
      end
  end.

Definition replace (m : matcher) (s : text) : text :=
  replace_from m 0 None s.

(** [String.prototype.match] with an expression that is not global: the
    leftmost position where it matches; the result is group 1 of the
    match. *)
Fixpoint search (r : re) (prev : option N) (s : text) : option (option text) :=
  match exec r prev s with
  | Some (_, g) => Some g
  | None =>
      match s with
      | [] => None
      | c :: s' => search r (Some c) s'
      end
  end.

End Regex.

Import Regex.

(** ** The playlist rewrite *)

Module Rewrite.

Definition upstream_base : text := cu "https://barbarian.men/macaw45/videos/".
Definition proxy_base : text := cu "/api/mp4/".
Definition quote : N := 34.
Definition uri_open : text := cu "URI=" ++ [quote].
Definition ext_ts : text := cu ".ts".
Definition ext_mp4 : text := cu ".mp4".

(** The class [.] without the [s] flag, and the class of all code units
    but the double quote. *)
Definition wildcard (c : N) : bool := negb (is_line_terminator c).
Definition not_quote (c : N) : bool := negb (c =? quote).

(** The lookahead body [https?:\/\/|#]. *)
Definition lookahead_body : re :=
  Alt (Seq (Lit (cu "http")) (Seq (Opt (Lit (cu "s"))) (Lit (cu "://"))))
      (Lit (cu "#")).

(** [/^(?!https?:\/\/|#)(.+\.ts)$/gm] and the same with [.mp4]. *)
Definition line_regex (ext : text) : re :=
  Seq Bol (Seq (NegLook lookahead_body)
            (Seq (Group (Seq (Plus1 wildcard) (Lit ext))) Eol)).

(** The expression of the second [replace]: the literal URI= and a double
    quote, group 1 of one or more code units other than the double quote
    followed by [.mp4], and a double quote; under the [g] flag. *)
Definition uri_regex : re :=
  Seq (Lit uri_open) (Seq (Group (Seq (Plus1 not_quote) (Lit ext_mp4))) (Lit [quote])).

(** The three replacement strings. *)
Definition ts_template : list piece := [Text upstream_base; Group1].
Definition uri_template : list piece := [Text uri_open; Text proxy_base; Group1; Text [quote]].
Definition mp4_template : list piece := [Text proxy_base; Group1].

Definition replace_ts : text -> text :=
  replace (regex_matcher (line_regex ext_ts) ts_template).
Definition replace_uri : text -> text :=
  replace (regex_matcher uri_regex uri_template).
Definition replace_mp4 : text -> text :=
  replace (regex_matcher (line_regex ext_mp4) mp4_template).

(** [modifiedContent] of the handler. *)
Definition rewrite (m3u8Content : text) : text :=
  replace_mp4 (replace_uri (replace_ts m3u8Content)).

End Rewrite.

Import Rewrite.

(** Line feed and double quote, for literals. *)
Definition nl : string := String (ascii_of_nat 10) EmptyString.
Definition dq : string := String (ascii_of_nat 34) EmptyString.

(** ** Numbers

    A JavaScript number is NaN or a value; values are kept as exact
    rationals, so the binary64 rounding of [parseFloat] and [+] is not
    part of the model (sums of dyadic values such as 4.0 and 2.5 are exact
    in both). *)

Module JsNumber.

Inductive number := NaN | Num (q : Q).

(** [a + b] *)
Definition add (a b : number) : number :=
  match a, b with
  | Num x, Num y => Num (x + y)%Q
  | _, _ => NaN
  end.

(** [Math.round]: the integer nearest to the argument, ties upwards;
    [None] is NaN. *)
Definition round (a : number) : option Z :=
  match a with
  | Num x => Some (Qfloor (x + (1 # 2))%Q)
  | NaN => None
  end.

Definition is_digit (c : N) : bool := (48 <=? c) && (c <=? 57).
Definition dot : N := 46.

(** Value of a run of decimal digits, most significant first. *)
Definition digits_value (ds : text) : Z :=
  fold_left (fun acc c => (10 * acc + (Z.of_N c - 48))%Z) ds 0%Z.

(** [parseFloat] on a string of digits and dots: the longest prefix that
    is a decimal literal ([d+], [d+.d*] or [.d+]) gives the value, and a
    string with no such prefix gives NaN. *)
Definition parseFloat (s : text) : number :=
  let ip := span is_digit s in
  let rest := drop (length ip) s in
  let fp := match rest with
            | c :: r => if c =? dot then span is_digit r else []
            | [] => []
            end in
  match ip, fp with
  | [], [] => NaN
  | _, _ =>
      Num (inject_Z (digits_value ip)
           + Qmake (digits_value fp) (Pos.pow 10 (Pos.of_nat (length fp))))%Q
  end.

End JsNumber.

Import JsNumber.

(** ** Upstream fetches

    [await fetch(url)] either throws (transport failure) or gives a
    response with a status and a body; [response.ok] is a status in
    200..299. *)

Module Fetch.

Inductive result (B : Type) :=
| NetworkError
| Response (status : Z) (body : B).
Arguments NetworkError {B}.
Arguments Response {B} status body.

Definition ok (status : Z) : bool := ((200 <=? status) && (status <=? 299))%Z.

End Fetch.

(** ** [getVideoDuration] *)

Module Duration.

Definition extinf : text := cu "#EXTINF:".
Definition comma : N := 44.

(** [/#EXTINF:([0-9.]+),/] *)
Definition digit_or_dot (c : N) : bool := is_digit c || (c =? dot).

Definition extinf_regex : re :=
  Seq (Lit extinf) (Seq (Group (Plus1 digit_or_dot)) (Lit [comma])).

(** One iteration of the [for (const line of lines)] loop. *)
Definition step (totalDuration : number) (line : text) : number :=
  if startsWith extinf line then
    match search extinf_regex None line with
    | Some (Some m1) => add totalDuration (parseFloat m1)
    | Some None => add totalDuration NaN
    | None => totalDuration
    end
  else totalDuration.

Definition totalDuration (m3u8Content : text) : number :=
  fold_left step (split_on 10 m3u8Content) (Num 0).

(** What the function returns: [null], or a number that is NaN or an
    integer. *)
Inductive duration :=
| Null
| NotANumber
| Seconds (n : Z).

Definition roundedDuration (m3u8Content : text) : duration :=
  match round (totalDuration m3u8Content) with
  | Some n => Seconds n
  | None => NotANumber
  end.

Definition getVideoDuration (m3u8Response : Fetch.result text) : duration :=
  match m3u8Response with
  | Fetch.NetworkError => Null
  | Fetch.Response status body =>
      if Fetch.ok status then roundedDuration body else Null
  end.

End Duration.

(** ** [app.get('/api/mp4/:filename')]

    Header values are strings; a value is truthy when it is not empty.
    [B] is the type of body streams, which the handler pipes through. *)

Module Mp4.

Section Handler.
Context {B : Type}.

Definition truthy (v : option string) : bool :=
  match v with
  | Some EmptyString => false
  | Some (String _ _) => true
  | None => false
  end.

(** What the upstream fetch sees: the request headers; what it gives:
    the response headers, read by [response.headers.get] under their
    lower-case names, and the body. *)
Definition upstream := gmap string string -> Fetch.result (gmap string string * B).

Inductive body :=
| Piped (b : B)
| Sent (s : string).

Record response := { status : Z; headers : gmap string string; content : body }.

(** [const headers = {}; if (req.headers.range) headers['Range'] = ...] *)
Definition request_headers (range : option string) : gmap string string :=
  match range with
  | Some r => if truthy range then {[ "Range" := r ]} else ∅
  | None => ∅
  end.

(** [if (response.headers.get(name)) res.set(Name, ...)] *)
Definition copy_header (from : gmap string string) (name Name : string)
    (res : gmap string string) : gmap string string :=
  match from !! name with
  | Some v => if truthy (Some v) then <[ Name := v ]> res else res
  | None => res
  end.

Definition handler (range : option string) (fetch : upstream) : response :=
  match fetch (request_headers range) with
  | Fetch.NetworkError =>
      {| status := 500; headers := ∅; content := Sent "Error fetching MP4" |}
  | Fetch.Response st (h, b) =>
      if negb (Fetch.ok st) then
        {| status := 404; headers := ∅; content := Sent "MP4 not found" |}
      else
        let res := copy_header h "content-range" "Content-Range" ∅ in
        let res := copy_header h "accept-ranges" "Accept-Ranges" res in
        let res := <[ "Content-Type" := "video/mp4" ]> res in
        let res := <[ "Access-Control-Allow-Origin" := "*" ]> res in
        let res := <[ "Cache-Control" := "public, max-age=3600" ]> res in
        {| status := st; headers := res; content := Piped b |}
  end.

End Handler.
Arguments body : clear implicits.
Arguments response : clear implicits.
Arguments upstream : clear implicits.

End Mp4.

(** ** [Array.prototype.sort]

    The sort is stable (ECMAScript 2019), so with a consistent comparator
    its result is the one stable ordering of the array; [sort] computes it
    by insertion. [cmp a b] stands for the sign of the comparator's
    result. *)

Module JsArray.

Section Sort.
Context {A : Type} (cmp : A -> A -> comparison).

Fixpoint insert (x : A) (l : list A) : list A :=
  match l with
  | [] => [x]
  | y :: l' =>
      match cmp x y with
      | Gt => y :: insert x l'
      | _ => x :: l
      end
  end.

Definition sort (l : list A) : list A := foldr insert [] l.

(** [x] may stand before [y]: the comparator does not put them in
    the other order. *)
Definition le (x y : A) : Prop := cmp x y <> Gt.
End Sort.

End JsArray.

(** ** [app.get('/api/chat/:videoId/:startTime/:endTime')] *)

Module Chat.

(** A message of an upstream shard: its [timestamp] property when it is a
    number, and the rest of the object. *)
Record message := { timestamp : option Q; payload : string }.

(** A collected message: [msg.video_timestamp = t] on top of the shard's
    object. *)
Record stamped := { video_timestamp : Z; msg : message }.

(** [a.timestamp || 0] *)
Definition timestamp_or_zero (a : stamped) : Q :=
  match timestamp (msg a) with
  | Some q => if Qeq_bool q 0 then 0%Q else q
  | None => 0%Q
  end.

(** The comparator of the final sort, by the sign of its result. *)
Definition compare_messages (a b : stamped) : comparison :=
  if negb (video_timestamp a =? video_timestamp b)%Z
  then (video_timestamp a ?= video_timestamp b)%Z
  else (timestamp_or_zero a ?= timestamp_or_zero b)%Q.

(** A shard's body after [response.json()]: [None] when parsing throws
    or the value is not an array of objects (then [forEach] throws). *)
Definition shard := Fetch.result (option (list message)).

Record state := { allMessages : list stamped; fetched : list Z }.

(** The body of the [for] loop at second [t], with its [try]/[catch]. *)
Definition fetch_second (upstream : Z -> shard) (t : Z) (st : state) : state :=
  let log := fetched st ++ [t] in
  match upstream t with
  | Fetch.Response status (Some messages) =>
      if Fetch.ok status
      then {| allMessages := allMessages st
                ++ List.map (fun m => {| video_timestamp := t; msg := m |}) messages;
              fetched := log |}
      else {| allMessages := allMessages st; fetched := log |}
  | _ => {| allMessages := allMessages st; fetched := log |}
  end.

(** [for (let t = start; t <= end; t++)]; the result is [None] when the
    fuel runs out before the loop ends. *)
Fixpoint loop (fuel : nat) (upstream : Z -> shard) (t end_ : Z) (st : state) : option state :=
  if (t <=? end_)%Z then
    match fuel with
    | O => None
    | S fuel' => loop fuel' upstream (t + 1) end_ (fetch_second upstream t st)
    end
  else Some st.

(** The bounds after [parseInt]: [None] is NaN, and [t <= end] is false
    as soon as one of them is. *)
Definition fetch_range (fuel : nat) (upstream : Z -> shard) (start end_ : option Z)
    : option state :=
  let st0 := {| allMessages := []; fetched := [] |} in
  match start, end_ with
  | Some s, Some e => loop fuel upstream s e st0
  | _, _ => Some st0
  end.

(** The handler's answer: [res.json(allMessages)] after the sort, with
    the seconds it fetched. *)
Record answer := { status : Z; body : list stamped; requests : list Z }.

Definition handler (fuel : nat) (upstream : Z -> shard) (start end_ : option Z)
    : option answer :=
  match fetch_range fuel upstream start end_ with
  | Some st => Some {| status := 200;
                       body := JsArray.sort compare_messages (allMessages st);
                       requests := fetched st |}
  | None => None
  end.

End Chat.

(** ** [syncMetadata]

    The store is the object [loadMetadata] parses from the metadata file
    (the empty object when the file is missing or unreadable); reads and
    writes of the file themselves do not fail in this model. *)

Module Metadata.

(** A value of [videos.json]: the properties the sync reads. *)
Record video_data := {
  vodid : option string;
  title : option string;
  description : option string;
  date : option string
}.

Record record := {
  r_vodid : string;
  r_title : option string;
  r_description : option string;
  r_date : option string;
  r_duration : Duration.duration;
  r_lastUpdated : string
}.

Abbreviation store := (gmap string record).

(** Properties every object inherits from [Object.prototype]: for these
    names [localMetadata[indexKey]] is truthy whatever the store holds. *)
Definition inherited : list string :=
  [ "constructor"; "__defineGetter__"; "__defineSetter__"; "hasOwnProperty";
    "__lookupGetter__"; "__lookupSetter__"; "isPrototypeOf";
    "propertyIsEnumerable"; "toString"; "valueOf"; "__proto__";
    "toLocaleString" ].

(** [!localMetadata[indexKey]] *)
Definition missing (localMetadata : store) (indexKey : string) : bool :=
  match localMetadata !! indexKey with
  | Some _ => false
  | None => negb (bool_decide (indexKey ∈ inherited))
  end.

(** [videoData.vodid || indexKey] *)
Definition actualVodId (videoData : video_data) (indexKey : string) : string :=
  match vodid videoData with
  | Some (String a v) => String a v
  | _ => indexKey
  end.

(** The state of the [for ... of Object.entries(remoteVideos)] loop:
    the object being filled, the [updated] flag, and the calls made to
    [getVideoDuration] so far, each as the index key it was made for
    and the VOD id it was made with. *)
Record loop_state := {
  localMetadata : store;
  updated : bool;
  duration_calls : list (string * string)
}.

Section Sync.
(** The world around one sync: what [getVideoDuration] answers for a
    VOD id, and [new Date().toISOString()]. *)
Variable getVideoDuration : string -> Duration.duration.
Variable now : string.

(** One iteration; [None] when [videoData] is [null], on which the
    property access throws. *)
Definition visit (st : loop_state) (entry : string * option video_data)
    : option loop_state :=
  let (indexKey, vd) := entry in
  match vd with
  | None => None
  | Some videoData =>
      let vod := actualVodId videoData indexKey in
      if missing (localMetadata st) indexKey then
        let duration := getVideoDuration vod in
        Some {| localMetadata :=
                  <[ indexKey := {| r_vodid := vod;
                                    r_title := title videoData;
                                    r_description := description videoData;
                                    r_date := date videoData;
                                    r_duration := duration;
                                    r_lastUpdated := now |} ]> (localMetadata st);
                updated := true;
                duration_calls := duration_calls st ++ [(indexKey, vod)] |}
      else Some st
  end.

(** The loop: the state it reached, and whether it ran to its end
    ([false]: an iteration threw). *)
Fixpoint visit_all (st : loop_state) (entries : list (string * option video_data))
    : loop_state * bool :=
  match entries with
  | [] => (st, true)
  | e :: es =>
      match visit st e with
      | Some st' => visit_all st' es
      | None => (st, false)
      end
  end.

(** One run of [syncMetadata] on the file's store. [remoteVideos] is
    [Object.entries] of the parsed index, [None] when the fetch or the
    parse throws. The result is the store in the file afterwards, with
    the calls made to [getVideoDuration]. The [catch] leaves the file
    as it was. *)
Definition syncMetadata (file : store)
    (remoteVideos : option (list (string * option video_data)))
    : store * list (string * string) :=
  match remoteVideos with
  | None => (file, [])
  | Some entries =>
      let st0 := {| localMetadata := file; updated := false; duration_calls := [] |} in
      let (st, completed) := visit_all st0 entries in
      ((if completed && updated st then localMetadata st else file),
       duration_calls st)
  end.
End Sync.

(** What one sync finds around it. *)
Record sync_input := {
  oracle : string -> Duration.duration;
  clock : string;
  remote : option (list (string * option video_data))
}.

(** The hourly syncs, one after the other, on the same file: the store
    at the end and all calls made to [getVideoDuration]. *)
Fixpoint sync_run (file : store) (inputs : list sync_input)
    : store * list (string * string) :=
  match inputs with
  | [] => (file, [])
  | i :: rest =>
      let (file1, calls1) := syncMetadata (oracle i) (clock i) file (remote i) in
      let (file2, calls2) := sync_run file1 rest in
      (file2, calls1 ++ calls2)
  end.

End Metadata.

(** ** Reading the duration, the proxy and the sync *)

Module DurationSpec.
Import Duration.

(** A text has no segment-duration directive when none of its lines
    starts with [#EXTINF:]. *)
Definition no_directive (m3u8Content : text) : Prop :=
  Forall (fun line => startsWith extinf line = false) (split_on 10 m3u8Content).

End DurationSpec.

Module Mp4Spec.
Import Mp4.

(** An upstream that answers 206 with a range, and one whose
    Content-Range header is there with an empty value. *)
Definition upstream_206 : upstream unit := fun req =>
  Fetch.Response 206
    ({[ "content-range" := "bytes 1000-1999/50000" ]} : gmap string string, tt).

Definition upstream_empty_range : upstream unit := fun req =>
  Fetch.Response 206 ({[ "content-range" := EmptyString ]} : gmap string string, tt).

End Mp4Spec.

Module MetadataSpec.
Import Metadata.

(** What the loop keeps true of its state, relative to the store [file]
    it started from: the records of [file] are still there, no key was
    given a duration twice, and a key that was given one is new. *)
Record inv (file : store) (st : loop_state) : Prop := {
  inv_keeps : forall k r, file !! k = Some r -> localMetadata st !! k = Some r;
  inv_nodup : NoDup (duration_calls st).*1;
  inv_new : forall k, k ∈ (duration_calls st).*1 ->
              file !! k = None /\ is_Some (localMetadata st !! k)
}.

End MetadataSpec.

(** ** Reading the chat handler

    What the claims about the chat range speak of, next to the handler. *)

Module ChatSpec.
Import Chat.

(** Fuel that lets the loop from [start] to [end_] end. *)
Definition enough_fuel (start end_ : option Z) : nat :=
  match start, end_ with
  | Some s, Some e => Z.to_nat (e - s + 1)
  | _, _ => O
  end.

(** The sort key of the specification, and its order. *)
Definition key_le (a b : stamped) : Prop :=
  (video_timestamp a < video_timestamp b)%Z
  \/ (video_timestamp a = video_timestamp b
      /\ (timestamp_or_zero a <= timestamp_or_zero b)%Q).

Definition same_key (a b : stamped) : bool :=
  (video_timestamp a =? video_timestamp b)%Z
  && Qeq_bool (timestamp_or_zero a) (timestamp_or_zero b).

(** A shard fetch that fails or is not 2xx. *)
Definition failed (r : shard) : bool :=
  match r with
  | Fetch.NetworkError => true
  | Fetch.Response status _ => negb (Fetch.ok status)
  end.

(** The upstream in which every failed shard is instead a successful
    one with no messages. *)
Definition heal (upstream : Z -> shard) : Z -> shard := fun t =>
  if failed (upstream t) then Fetch.Response 200 (Some []) else upstream t.

(** Seconds 41 and 43 hold one message each, second 42 cannot be
    reached. *)
Definition upstream_41_43 : Z -> shard := fun t =>
  if (t =? 41)%Z then
    Fetch.Response 200 (Some [ {| timestamp := Some (5 # 1); payload := "first" |} ])
  else if (t =? 43)%Z then
    Fetch.Response 200 (Some [ {| timestamp := None; payload := "second" |} ])
  else Fetch.NetworkError.

End ChatSpec.

(** ** Reading the rewrite

    What the claims about the rewrite speak of. *)

Module RewriteSpec.

(** What the lookahead body matches: an absolute line, a directive or a
    comment. *)
Definition absolute_or_directive (s : text) : bool :=
  startsWith (cu "http://") s || startsWith (cu "https://") s
  || startsWith (cu "#") s.

(** The line expression at one position, in closed form. [.] stops at a
    line terminator and [$] needs one (or the end of input) right after
    the match, so the only candidate for [$1] is the whole rest of the
    line; [.+] needs one code unit in front of the extension. *)
Definition line_matcher (ext base : text) : matcher := fun prev s =>
  if at_line_start prev && negb (absolute_or_directive s) then
    let l := span wildcard s in
    if endsWith ext l && (length ext <? length l)%nat
    then Some (base ++ l, length l)
    else None
  else None.

(** The attribute expression at one position, in closed form. The class
    runs up to the next double quote, and the closing quote of the
    expression must be that one, so the only candidate for [$1] is the
    run up to it. *)
Definition uri_matcher : matcher := fun _ s =>
  if startsWith uri_open s then
    let s1 := drop (length uri_open) s in
    let r := span not_quote s1 in
    match drop (length r) s1 with
    | q :: _ =>
        if endsWith ext_mp4 r && (length ext_mp4 <? length r)%nat
        then Some (uri_open ++ proxy_base ++ r ++ [quote],
                   (length uri_open + length r + 1)%nat)
        else None
    | [] => None
    end
  else None.

(** [ins ok W prev x y]: [y] is [x] with words of [W] put in, each at a
    position that [ok] allows; [ok] judges a position by the code unit of
    [x] before it, and [prev] is the one before [x]. *)
Inductive ins (ok : option N -> bool) (W : text -> Prop) : option N -> text -> text -> Prop :=
| ins_nil prev : ins ok W prev [] []
| ins_keep prev c x y : ins ok W (Some c) x y -> ins ok W prev (c :: x) (c :: y)
| ins_word prev w x y : ok prev = true -> W w -> ins ok W prev x y -> ins ok W prev x (w ++ y).

(** The two prefixes the rewrite puts in. *)
Definition base_word (w : text) : Prop := w = upstream_base \/ w = proxy_base.

(** Directly after a double quote. *)
Definition after_quote (prev : option N) : bool :=
  match prev with
  | Some c => c =? quote
  | None => false
  end.

(** A matcher that only puts words in: at a match the replacement is the
    matched text with words of [W] at positions [ok] allows. *)
Definition inserting (ok : option N -> bool) (W : text -> Prop) (m : matcher) : Prop :=
  forall prev s repl len,
    m prev s = Some (repl, len) ->
    (1 <= len <= length s)%nat /\ ins ok W prev (take len s) repl.

Definition no_terminator (l : text) : Prop :=
  Forall (fun c => is_line_terminator c = false) l.

Definition no_quote (l : text) : Prop :=
  Forall (fun c => (c =? quote) = false) l.

(** [l] is some code units followed by the extension. *)
Definition has_ext (ext l : text) : bool :=
  endsWith ext l && (length ext <? length l)%nat.

(** Neither absolute nor a directive or comment. *)
Definition relative (l : text) : bool := negb (absolute_or_directive l).

(** What a line-anchored substitution makes of one line. *)
Definition line_out (ext base l : text) : text :=
  if relative l && has_ext ext l then base ++ l else l.

(** A text taken apart at the code units that satisfy [p]: the first piece,
    then each separator with the piece after it; and put together again. *)
Fixpoint split_at (p : N -> bool) (s : text) : text * list (N * text) :=
  match s with
  | [] => ([], [])
  | c :: s' =>
      let (l, ls) := split_at p s' in
      if p c then ([], (c, l) :: ls) else (c :: l, ls)
  end.

Definition unlines (l0 : text) (ls : list (N * text)) : text :=
  l0 ++ flat_map (fun cl => fst cl :: snd cl) ls.

(** Lines and the terminators between them. *)
Definition wf_lines (l0 : text) (ls : list (N * text)) : Prop :=
  no_terminator l0
  /\ Forall (fun cl => is_line_terminator (fst cl) = true /\ no_terminator (snd cl)) ls.

(** [f] on every line of a text. *)
Definition map_lines (f : text -> text) (x : text) : text :=
  let (l0, ls) := split_at is_line_terminator x in
  unlines (f l0) (List.map (fun cl => (fst cl, f (snd cl))) ls).

(** What may follow a line: nothing, or a line terminator. *)
Definition line_end (rest : text) : Prop :=
  match rest with
  | [] => True
  | c :: _ => is_line_terminator c = true
  end.

(** The scan at the end of a line: the terminator is copied and the scan
    goes on after it. *)
Definition tail_out (m : matcher) (rest : text) : text :=
  match rest with
  | [] => []
  | c :: r => c :: replace_from m 0 (Some c) r
  end.

(** The rules for a line [l] of the text and the line [l'] at the same
    place in the rewrite: a relative line with the segment extension gets
    the upstream base in front (and is otherwise as it was unless it holds
    a double quote); a relative line with the container extension and no
    double quote gets the proxy base in front; an absolute line, directive
    or comment only grows (and is as it was unless it holds a double
    quote). *)
Definition line_rule (l l' : text) : Prop :=
  (relative l = true -> has_ext ext_ts l = true ->
     exists v, l' = upstream_base ++ v /\ sublist l v /\ (no_quote l -> v = l))
  /\ (relative l = true -> has_ext ext_mp4 l = true -> no_quote l ->
      l' = proxy_base ++ l)
  /\ (absolute_or_directive l = true ->
      sublist l l' /\ (no_quote l -> l' = l)).

(** The rule for an attribute in the text [x]: the value [r] between
    the opening and the next double quote gets the proxy base in front,
    and what stands before and after only grows. *)
Definition attribute_rule (x : text) : Prop :=
  forall pre r post : text,
    x = pre ++ uri_open ++ r ++ quote :: post ->
    no_quote r -> no_terminator r -> has_ext ext_mp4 r = true ->
    exists pre' post',
      rewrite x = pre' ++ uri_open ++ proxy_base ++ r ++ quote :: post'
      /\ sublist pre pre' /\ sublist post post'.

(** The manifest of the specification's scenario. *)
Definition scenario : text :=
  cu ("segment1.ts" ++ nl ++ "#EXT-X-MAP:URI=" ++ dq ++ "init.mp4" ++ dq ++ nl
      ++ "part0.mp4").

(** A playlist of segments only, and one that is absolute already. *)
Definition segments_only : text :=
  cu ("#EXTM3U" ++ nl ++ "#EXTINF:4.0," ++ nl ++ "segment1.ts" ++ nl
      ++ "https://cdn.example/segment2.ts").

Definition absolute_only : text :=
  cu ("#EXTM3U" ++ nl ++ "https://cdn.example/segment2.ts" ++ nl
      ++ "http://cdn.example/part0.mp4").

End RewriteSpec.

(** ** Reading the chat range, continued *)

Module ChatRange.
Import Chat.

(** What the loop collects at second [t]: the messages of a shard that
    answered 2xx with an array of objects, each stamped with [t]. *)
Definition collected (upstream : Z -> shard) (t : Z) : list stamped :=
  match upstream t with
  | Fetch.Response status (Some messages) =>
      if Fetch.ok status
      then List.map (fun m => {| video_timestamp := t; msg := m |}) messages
      else []
  | _ => []
  end.

(** A message the upstream holds for second [t]. *)
Definition delivered (upstream : Z -> shard) (t : Z) (m : message) : Prop :=
  exists status messages,
    upstream t = Fetch.Response status (Some messages)
    /\ Fetch.ok status = true /\ m ∈ messages.

(** Seconds 10 to 12: two messages out of order in second 10, none in 11
    (not found), one in 12. *)
Definition upstream_10_12 : Z -> shard := fun t =>
  if (t =? 10)%Z then
    Fetch.Response 200 (Some [ {| timestamp := Some (7 # 1); payload := "late" |};
                               {| timestamp := Some (3 # 1); payload := "early" |} ])
  else if (t =? 12)%Z then
    Fetch.Response 200 (Some [ {| timestamp := None; payload := "last" |} ])
  else Fetch.Response 404 None.

End ChatRange.

(** ** Reading the sync, continued *)

Module MetadataSync.
Import Metadata.

(** An index none of whose values is [null]: the loop runs to its end. *)
Definition all_objects (entries : list (string * option video_data)) : Prop :=
  Forall (fun e => is_Some (snd e)) entries.

(** The record the loop writes for a new key. *)
Definition new_record (getVideoDuration : string -> Duration.duration) (now : string)
    (indexKey : string) (videoData : video_data) : record :=
  {| r_vodid := actualVodId videoData indexKey;
     r_title := title videoData;
     r_description := description videoData;
     r_date := date videoData;
     r_duration := getVideoDuration (actualVodId videoData indexKey);
     r_lastUpdated := now |}.

(** An index of two videos, the second without a VOD id of its own, and
    one whose second value is [null]. *)
Definition video_a : video_data :=
  {| vodid := Some "1001"; title := Some "First"; description := None;
     date := Some "2020-01-01" |}.

Definition video_b : video_data :=
  {| vodid := None; title := Some "Second"; description := None; date := None |}.

Definition index_ab : list (string * option video_data) :=
  [ ("0", Some video_a); ("1", Some video_b) ].

Definition index_broken : list (string * option video_data) :=
  [ ("0", Some video_a); ("1", None) ].

Definition no_duration : string -> Duration.duration := fun _ => Duration.Null.

(** An upstream whose playlists cannot be fetched, and a later sync that
    finds the same index and playlists of ten seconds. *)
Definition fetch_down : string -> Fetch.result text := fun _ => Fetch.NetworkError.

Definition later_sync : sync_input :=
  {| oracle := fun _ => Duration.Seconds 10; clock := "2024-02-02";
     remote := Some index_ab |}.

End MetadataSync.

(** ** The lines [getVideoDuration] counts *)

Module DurationLines.
Import Duration.

(** The fetch of the playlist threw or did not answer 2xx. *)
Definition failed (m3u8Response : Fetch.result text) : Prop :=
  match m3u8Response with
  | Fetch.NetworkError => True
  | Fetch.Response status _ => Fetch.ok status = false
  end.

(** The lines the loop looks into. *)
Definition directives (m3u8Content : text) : list text :=
  List.filter (startsWith extinf) (split_on 10 m3u8Content).

(** A line that starts with the directive and holds a comma somewhere. *)
Definition counted (line : text) : bool :=
  startsWith extinf line && bool_decide (comma ∈ line).

(** A directive line as playlists write it: a value, a comma, and
    anything. *)
Definition directive (value rest : text) : text := extinf ++ value ++ comma :: rest.

Definition digits_and_dots (value : text) : Prop :=
  value <> [] /\ Forall (fun c => digit_or_dot c = true) value.

Definition playlist_ab : text :=
  cu ("#EXTM3U" ++ nl ++ "#EXTINF:4.0,first" ++ nl ++ "a.ts" ++ nl ++ "#EXTINF:2.5," ++ nl
      ++ "b.ts").

Definition playlist_ab_noise : text :=
  cu ("#EXTINF:4.0,first" ++ nl ++ "#EXTINF:9" ++ nl ++ "x,y" ++ nl ++ "#EXTINF:2.5,").

(** A number that is NaN or not negative. *)
Definition not_negative (a : number) : Prop :=
  match a with
  | NaN => True
  | Num q => (0 <= q)%Q
  end.

(** The playlist with a lone dot for a value. *)
Definition playlist_dot : text :=
  cu ("#EXTINF:4.0," ++ nl ++ "#EXTINF:.," ++ nl ++ "#EXTINF:2.5,").

End DurationLines.

(** ** [app.get('/api/video/:videoId')]

    The handler cleans the id, fetches the playlist of that id and sends
    the rewritten playlist. *)

Module Video.

(** [s.replace(w, r)] with a string pattern and a replacement without
    [$]: the first occurrence of [w] is replaced. *)
Fixpoint replace_string (w r s : text) : text :=
  if startsWith w s then r ++ drop (length w) s
  else match s with
       | [] => []
       | c :: s' => c :: replace_string w r s'
       end.

Definition v : text := cu "v".

Definition cleanVideoId (videoId : text) : text :=
  let cleanVideoId := if startsWith v videoId then drop 1 videoId else videoId in
  if endsWith ext_mp4 cleanVideoId
  then replace_string ext_mp4 [] cleanVideoId
  else cleanVideoId.

Definition url (videoId : text) : text :=
  upstream_base ++ v ++ cleanVideoId videoId ++ cu ".m3u8".

(** An answer: its status, the headers the handler sets with [res.set],
    and the text it sends. *)
Record response := { status : Z; headers : gmap string string; content : text }.

(** The fetch is the world's answer to a URL. *)
Definition handler (videoId : text) (fetch : text -> Fetch.result text) : response :=
  match fetch (url videoId) with
  | Fetch.NetworkError =>
      {| status := 500; headers := ∅; content := cu "Error fetching video" |}
  | Fetch.Response st m3u8Content =>
      if negb (Fetch.ok st) then
        {| status := 404; headers := ∅; content := cu "Video not found" |}
      else
        {| status := 200;
           headers := <[ "Access-Control-Allow-Origin" := "*" ]>
                        (<[ "Cache-Control" := "public, max-age=300" ]>
                           (<[ "Content-Type" := "application/x-mpegURL" ]> ∅));
           content := rewrite m3u8Content |}
  end.

(** A code unit that is not the full stop of the extension. *)
Definition full_stop : N := 46.

(** An upstream that has the playlist of video 1001 only. *)
Definition upstream_1001 : text -> Fetch.result text := fun u =>
  if bool_decide (u = cu "https://barbarian.men/macaw45/videos/v1001.m3u8")
  then Fetch.Response 200 (cu "segment1.ts")
  else Fetch.Response 404 [].

End Video.

(** ** The rewrite on a playlist without double quotes *)

Module RewriteLines.
Import RewriteSpec.

(** What the three passes make of one line that holds no double quote. *)
Definition rewrite_line (l : text) : text :=
  if relative l then
    if has_ext ext_ts l then upstream_base ++ l
    else if has_ext ext_mp4 l then proxy_base ++ l
    else l
  else l.

(** A line the rewrite has something to put in front of. *)
Definition rewritable (l : text) : bool :=
  relative l && (has_ext ext_ts l || has_ext ext_mp4 l).

(** A relative line with the container extension. *)
Definition container_line (l : text) : bool := relative l && has_ext ext_mp4 l.

(** A playlist with a relative container line. *)
Definition container_only : text := cu ("#EXTM3U" ++ nl ++ "part0.mp4").

End RewriteLines.

(** ** [loadEmoteMappings]

    The three fetches are awaited together, so one that throws makes the
    whole function go to its [catch]. Then each table in turn is replaced
    by the parsed body of its response when that is 2xx;
    [response.json()] throws on a body that does not parse, and
    [Object.keys] throws on [null], after the assignment. *)

Module Emotes.

Section Load.
Context {V : Type}.

(** A parsed body: [null], or another value. *)
Inductive json :=
| JsonNull
| Value (v : V).

(** [firstPartyEmotes], [thirdPartyEmotes] and [global.cheersData], which
    is [undefined] until it is set. *)
Record tables := {
  firstPartyEmotes : json;
  thirdPartyEmotes : json;
  cheersData : option json
}.

(** A response to one fetch; the body is [None] when it does not parse. *)
Definition response := Fetch.result (option json).

(** One [if (response.ok) { table = await response.json(); Object.keys(table) }]:
    the tables after it, and whether the function goes on ([false]: it
    threw). *)
Definition load_one (r : Z * option json) (set : json -> tables -> tables) (t : tables)
    : tables * bool :=
  if Fetch.ok (fst r) then
    match snd r with
    | None => (t, false)
    | Some JsonNull => (set JsonNull t, false)
    | Some (Value v) => (set (Value v) t, true)
    end
  else (t, true).

Definition set_first (j : json) (t : tables) : tables :=
  {| firstPartyEmotes := j; thirdPartyEmotes := thirdPartyEmotes t;
     cheersData := cheersData t |}.

Definition set_third (j : json) (t : tables) : tables :=
  {| firstPartyEmotes := firstPartyEmotes t; thirdPartyEmotes := j;
     cheersData := cheersData t |}.

Definition set_cheers (j : json) (t : tables) : tables :=
  {| firstPartyEmotes := firstPartyEmotes t; thirdPartyEmotes := thirdPartyEmotes t;
     cheersData := Some j |}.

Definition loadEmoteMappings (firstPartyResponse thirdPartyResponse cheersResponse : response)
    (t : tables) : tables :=
  match firstPartyResponse, thirdPartyResponse, cheersResponse with
  | Fetch.Response s1 b1, Fetch.Response s2 b2, Fetch.Response s3 b3 =>
      let (t1, go1) := load_one (s1, b1) set_first t in
      if go1 then
        let (t2, go2) := load_one (s2, b2) set_third t1 in
        if go2 then fst (load_one (s3, b3) set_cheers t2) else t2
      else t1
  | _, _, _ => t
  end.

(** The response was 2xx with a body that made the function throw. *)
Definition throws (r : response) : Prop :=
  match r with
  | Fetch.NetworkError => True
  | Fetch.Response s b => Fetch.ok s = true /\ (b = None \/ b = Some JsonNull)
  end.

End Load.
Arguments json : clear implicits.
Arguments tables : clear implicits.
Arguments response : clear implicits.

Definition empty_tables : tables string :=
  {| firstPartyEmotes := Value "{}"; thirdPartyEmotes := Value "{}"; cheersData := None |}.

End Emotes.

(** * Properties *)

(** ** Strings *)

Module StringFacts.

Lemma startsWith_spec (p s : text) :
  startsWith p s = true <-> exists t, s = p ++ t.
Proof.
  revert s. induction p as [|a p IH]; intros s; cbn.
  - split; [eauto|done].
  - destruct s as [|b s]; [split; [done|by intros [t Ht]]|].
    rewrite andb_true_iff, N.eqb_eq, IH. split.
    + intros [-> [t ->]]. eauto.
    + intros [t [= -> ->]]. eauto.
Qed.

Lemma startsWith_app (p t : text) : startsWith p (p ++ t) = true.
Proof. apply startsWith_spec. eauto. Qed.

Lemma endsWith_spec (p s : text) :
  endsWith p s = true <-> exists t, s = t ++ p.
Proof.
  unfold endsWith. rewrite startsWith_spec. split.
  - intros [t Ht]. exists (rev t).
    rewrite <- (rev_involutive s), Ht, rev_app_distr. by rewrite rev_involutive.
  - intros [t ->]. exists (rev t). by rewrite rev_app_distr.
Qed.

(** A prefix test does not look beyond the prefix's length: a text that
    goes on with a code unit that is not in [p] at all answers as the
    text cut there. *)
Lemma startsWith_cut (p l rest : text) (c : N) :
  c ∉ p -> startsWith p (l ++ c :: rest) = startsWith p l.
Proof.
  revert l. induction p as [|a p IH]; intros l Hc; [done|].
  destruct l as [|b l]; cbn.
  - destruct (N.eqb_spec a c) as [->|]; [|done].
    exfalso. apply Hc. left.
  - rewrite IH; [done|]. intros H. apply Hc. by right.
Qed.

Lemma startsWith_split (a b s : text) :
  startsWith (a ++ b) s = startsWith a s && startsWith b (drop (length a) s).
Proof.
  revert s. induction a as [|c a IH]; intros s; [done|].
  destruct s as [|d s]; [done|]. cbn. rewrite IH. by rewrite andb_assoc.
Qed.

Lemma span_prefix (p : N -> bool) (s : text) :
  span p s ++ drop (length (span p s)) s = s.
Proof.
  induction s as [|c s IH]; [done|]. cbn.
  destruct (p c); cbn; [by rewrite IH|done].
Qed.

Lemma span_take (p : N -> bool) (s : text) :
  take (length (span p s)) s = span p s.
Proof.
  induction s as [|c s IH]; [done|]. cbn.
  destruct (p c); cbn; [by rewrite IH|done].
Qed.

Lemma span_all (p : N -> bool) (s : text) : Forall (fun c => p c = true) (span p s).
Proof.
  induction s as [|c s IH]; cbn; [constructor|].
  destruct (p c) eqn:E; by constructor.
Qed.

Lemma span_stop (p : N -> bool) (s : text) (c : N) (t : text) :
  drop (length (span p s)) s = c :: t -> p c = false.
Proof.
  induction s as [|a s IH]; cbn; [done|].
  destruct (p a) eqn:E; cbn; [done|]. by intros [= <- _].
Qed.

Lemma span_app (p : N -> bool) (l rest : text) :
  Forall (fun c => p c = true) l ->
  span p (l ++ rest) = l ++ span p rest.
Proof.
  induction 1 as [|c l Hc _ IH]; [done|]. cbn. by rewrite Hc, IH.
Qed.

Lemma span_line (p : N -> bool) (l rest : text) (c : N) :
  Forall (fun c => p c = true) l -> p c = false ->
  span p (l ++ c :: rest) = l.
Proof.
  intros Hl Hc. rewrite span_app by done. cbn. rewrite Hc. apply app_nil_r.
Qed.

Lemma span_whole (p : N -> bool) (l : text) :
  Forall (fun c => p c = true) l -> span p l = l.
Proof.
  intros Hl. rewrite <- (app_nil_r l) at 1. rewrite span_app by done.
  apply app_nil_r.
Qed.

Lemma negb_forall (p : N -> bool) (l : text) :
  Forall (fun c => p c = false) l -> Forall (fun c => negb (p c) = true) l.
Proof. intros H. eapply Forall_impl; [exact H|]. by intros c ->. Qed.

End StringFacts.

(** ** The scan of [replace] *)

Module RegexFacts.
Import RewriteSpec StringFacts.

Lemma prev_after_cons (prev : option N) (c : N) (a : text) :
  prev_after prev (c :: a) = prev_after (Some c) a.
Proof.
  unfold prev_after. rewrite last_cons. by destruct (last a).
Qed.

Lemma prev_after_app (prev : option N) (a b : text) :
  prev_after prev (a ++ b) = prev_after (prev_after prev a) b.
Proof.
  revert prev. induction a as [|c a IH]; intros prev; [done|].
  rewrite <- app_comm_cons, !prev_after_cons. apply IH.
Qed.

(** Inside a match the scan only moves on. *)
Lemma replace_from_skip (m : matcher) (s : text) :
  forall (k : nat) (prev : option N),
    (k <= length s)%nat ->
    replace_from m k prev s = replace_from m 0 (prev_after prev (take k s)) (drop k s).
Proof.
  induction s as [|c s IH]; intros k prev Hk.
  - cbn in Hk. by replace k with 0%nat by lia.
  - destruct k as [|k]; [done|]. cbn [replace_from take drop].
    rewrite prev_after_cons. apply IH. cbn in Hk. lia.
Qed.

Section Ins.
Context (ok : option N -> bool) (W : text -> Prop).

Lemma ins_refl (prev : option N) (x : text) : ins ok W prev x x.
Proof. revert prev. induction x; intros; by constructor. Qed.

Lemma ins_app (prev : option N) (x1 y1 x2 y2 : text) :
  ins ok W prev x1 y1 -> ins ok W (prev_after prev x1) x2 y2 ->
  ins ok W prev (x1 ++ x2) (y1 ++ y2).
Proof.
  induction 1 as [prev|prev c x y _ IH|prev w x y Hok Hw _ IH]; intros H2.
  - done.
  - cbn. constructor. apply IH. by rewrite prev_after_cons in H2.
  - rewrite <- app_assoc. constructor; auto.
Qed.

Lemma ins_sublist (prev : option N) (x y : text) :
  ins ok W prev x y -> sublist x y.
Proof.
  induction 1 as [prev|prev c x y _ IH|prev w x y _ _ _ IH].
  - constructor.
  - by constructor.
  - by apply sublist_inserts_l.
Qed.

(** A run of code units after none of which a word may go, read from a
    position where none may go either, comes out as it is. *)
Lemma ins_prefix (a : text) :
  forall (prev : option N) (t u : text),
    ins ok W prev (a ++ t) u ->
    ok prev = false ->
    Forall (fun c => ok (Some c) = false) a ->
    exists t', u = a ++ t' /\ ins ok W (prev_after prev a) t t'.
Proof.
  induction a as [|c a IH]; intros prev t u Hi Hp Ha.
  - exists u. done.
  - inversion Ha as [|? ? Hc Ha']; subst.
    remember ((c :: a) ++ t) as x eqn:Ex.
    induction Hi as [prev|prev d x y Hi _|prev w x y Hok _ _ _]; [done| |congruence].
    injection Ex as -> ->.
    destruct (IH (Some c) t y Hi Hc Ha') as (t' & -> & Ht').
    exists t'. by rewrite prev_after_cons.
Qed.

Lemma ins_forall (P : N -> Prop) (prev : option N) (x y : text) :
  (forall w, W w -> Forall P w) -> ins ok W prev x y -> Forall P x -> Forall P y.
Proof.
  intros HW. induction 1 as [prev|prev c x y _ IH|prev w x y _ Hw _ IH]; intros Hx.
  - done.
  - inversion Hx; subst. constructor; auto.
  - apply Forall_app. split; auto.
Qed.

(** A text with no position where a word may go comes out as it is. *)
Lemma ins_fixed (prev : option N) (x y : text) :
  ins ok W prev x y ->
  ok prev = false ->
  Forall (fun c => ok (Some c) = false) x ->
  y = x.
Proof.
  induction 1 as [prev|prev c x y _ IH|prev w x y Hok _ _ _]; intros Hp Hx.
  - done.
  - inversion Hx; subst. f_equal. by apply IH.
  - congruence.
Qed.

(** A piece of the text inside which no word may go is found again in
    the result, between what became of the text before and after it. *)
Lemma ins_chunk (prev : option N) (x y : text) :
  ins ok W prev x y ->
  forall pre mid post : text,
    x = pre ++ mid ++ post ->
    Forall (fun c => ok (Some c) = false) mid ->
    exists A C, y = A ++ mid ++ C /\ sublist pre A /\ sublist post C.
Proof.
  induction 1 as [prev|prev c x y Hi IH|prev w x y Hok Hw Hi IH];
    intros pre mid post Ex Hmid.
  - symmetry in Ex. apply app_eq_nil in Ex as [-> Ex].
    apply app_eq_nil in Ex as [-> ->]. by exists [], [].
  - destruct pre as [|c' pre].
    + destruct mid as [|c' mid].
      * cbn in Ex. subst post. exists [], (c :: y). split; [done|].
        split; [done|]. constructor. by eapply ins_sublist.
      * injection Ex as <- ->. inversion Hmid as [|? ? Hc Hmid']; subst.
        destruct (ins_prefix mid (Some c) post y Hi Hc Hmid') as (C & -> & HC).
        exists [], C. split; [done|]. split; [done|]. by eapply ins_sublist.
    + injection Ex as <- ->.
      destruct (IH pre mid post eq_refl Hmid) as (A & C & -> & HA & HC).
      exists (c :: A), C. split; [done|]. split; [by constructor|done].
  - destruct (IH pre mid post Ex Hmid) as (A & C & -> & HA & HC).
    exists (w ++ A), C. rewrite <- app_assoc. split; [done|].
    split; [by apply sublist_inserts_l|done].
Qed.
End Ins.

Lemma ins_weaken (ok ok' : option N -> bool) (W W' : text -> Prop)
    (prev : option N) (x y : text) :
  (forall p, ok p = true -> ok' p = true) -> (forall w, W w -> W' w) ->
  ins ok W prev x y -> ins ok' W' prev x y.
Proof. intros Hok HW. induction 1; constructor; auto. Qed.

Lemma replace_from_ext (m m' : matcher) (s : text) :
  (forall prev t, m prev t = m' prev t) ->
  forall (k : nat) (prev : option N), replace_from m k prev s = replace_from m' k prev s.
Proof.
  intros Hm. induction s as [|c s IH]; intros k prev; [done|].
  cbn [replace_from]. destruct k; [|apply IH].
  rewrite Hm. destruct (m' prev (c :: s)) as [[repl len]|]; by rewrite IH.
Qed.

Lemma greedy_ext {R : Type} (p : N -> bool) (k k' : option N -> text -> option R) (s : text) :
  (forall prev t, k prev t = k' prev t) ->
  forall prev, greedy p prev s k = greedy p prev s k'.
Proof.
  intros Hk. induction s as [|c s IH]; intros prev; [done|].
  cbn. by rewrite IH, Hk.
Qed.

Lemma has_ext_nil (ext : text) : has_ext ext [] = false.
Proof. unfold has_ext. cbn. apply andb_false_r. Qed.

Lemma has_ext_cons (ext l : text) (c : N) :
  has_ext ext l = true -> has_ext ext (c :: l) = true.
Proof.
  unfold has_ext. rewrite !andb_true_iff, !Nat.ltb_lt, !endsWith_spec.
  intros [[t ->] Hl]. split; [by exists (c :: t)|cbn; lia].
Qed.

Lemma has_ext_exact (ext : text) (c : N) : has_ext ext (c :: ext) = true.
Proof.
  unfold has_ext. rewrite andb_true_iff, Nat.ltb_lt, endsWith_spec.
  split; [by exists [c]|cbn; lia].
Qed.

Lemma has_ext_cons_inv (ext l : text) (c : N) :
  has_ext ext (c :: l) = true -> has_ext ext l = true \/ l = ext.
Proof.
  unfold has_ext. rewrite !andb_true_iff, !Nat.ltb_lt, !endsWith_spec.
  intros [[t Ht] Hl]. destruct t as [|d t].
  - cbn in Ht. subst ext. cbn in Hl. lia.
  - injection Ht as -> ->. destruct t as [|e t]; [by right|]. left.
    split; [eauto|]. rewrite length_app. cbn. lia.
Qed.

(** A text that starts with [ext] after a run of the class, where [ext]
    is of the class and what follows the run is not. *)
Lemma startsWith_in_run (p : N -> bool) (ext rest : text) :
  Forall (fun c => p c = true) ext ->
  match rest with [] => True | c :: _ => p c = false end ->
  forall l, startsWith ext (l ++ rest) = true -> exists l', l = ext ++ l'.
Proof.
  intros He Hr. induction He as [|a ext Ha _ IH]; intros l; [by exists l|].
  destruct l as [|b l]; cbn.
  - destruct rest as [|d rest]; [done|]. rewrite andb_true_iff, N.eqb_eq.
    intros [-> _]. congruence.
  - rewrite andb_true_iff, N.eqb_eq. intros [-> H].
    destruct (IH l H) as [l' ->]. by exists l'.
Qed.

(** The greedy class followed by a literal of the class and by a test
    that fails on the class: the run is given back down to the literal,
    which has to end the run. *)
Lemma greedy_then_ext {R : Type} (p : N -> bool) (ext : text) (stop : text -> bool)
    (F : text -> R) (rest : text) :
  Forall (fun c => p c = true) ext ->
  match rest with [] => True | c :: _ => p c = false end ->
  (forall c t, p c = true -> stop (c :: t) = false) ->
  forall (l : text) (prev : option N),
    Forall (fun c => p c = true) l ->
    greedy p prev (l ++ rest)
      (fun _ s' => if startsWith ext s' && stop (drop (length ext) s')
                   then Some (F s') else None)
    = if has_ext ext l && stop rest then Some (F (ext ++ rest)) else None.
Proof.
  intros Hext Hrest Hstop. induction l as [|c l IH]; intros prev Hl.
  - rewrite has_ext_nil. cbn [andb app].
    destruct rest as [|d rest]; [done|]. cbn. by rewrite Hrest.
  - inversion Hl as [|? ? Hc Hl']; subst. cbn [app greedy]. rewrite Hc, IH by done.
    destruct (has_ext ext l && stop rest) eqn:E1.
    + apply andb_true_iff in E1 as [E1 E1']. by rewrite (has_ext_cons _ _ c E1), E1'.
    + destruct (startsWith ext (l ++ rest) && stop (drop (length ext) (l ++ rest))) eqn:E2.
      * apply andb_true_iff in E2 as [E2 E2'].
        destruct (startsWith_in_run p ext rest Hext Hrest l E2) as [l' ->].
        rewrite <- app_assoc, drop_app_length in E2'.
        destruct l' as [|d l'].
        -- rewrite app_nil_r, has_ext_exact. cbn in E2'. by rewrite E2'.
        -- apply Forall_app in Hl' as [_ Hl']. inversion Hl'; subst.
           cbn in E2'. rewrite Hstop in E2' by done. done.
      * destruct (has_ext ext (c :: l) && stop rest) eqn:E3; [|done].
        apply andb_true_iff in E3 as [E3 E3'].
        apply has_ext_cons_inv in E3 as [E3| ->].
        -- by rewrite E3, E3' in E1.
        -- by rewrite startsWith_app, drop_app_length, E3' in E2.
Qed.

(** The scan at a position where the expression matches. *)
Lemma replace_from_match (m : matcher) (prev : option N) (s repl : text) (len : nat) :
  m prev s = Some (repl, len) ->
  (1 <= len <= length s)%nat ->
  replace_from m 0 prev s
  = repl ++ replace_from m 0 (prev_after prev (take len s)) (drop len s).
Proof.
  intros Hm [H1 H2]. destruct s as [|c s]; [cbn in H2; lia|].
  cbn [replace_from]. rewrite Hm. f_equal.
  destruct len as [|len]; [lia|]. cbn [Nat.pred take drop]. cbn in H2.
  rewrite replace_from_skip by lia. by rewrite prev_after_cons.
Qed.

Lemma lookup_mid (a b c : text) (k : nat) :
  (k < length b)%nat -> (a ++ b ++ c) !! (length a + k)%nat = b !! k.
Proof.
  intros Hk. rewrite lookup_app_r by lia.
  replace (length a + k - length a)%nat with k by lia. by rewrite lookup_app_l.
Qed.

Section Scan.
Context (ok : option N -> bool) (W : text -> Prop) (m : matcher).
Hypothesis m_ins : inserting ok W m.

(** The result of the scan is the text with words put in. *)
Lemma replace_from_ins (n : nat) :
  forall (s : text) (prev : option N),
    (length s <= n)%nat -> ins ok W prev s (replace_from m 0 prev s).
Proof.
  induction n as [|n IH]; intros s prev Hn.
  - destruct s; [constructor|cbn in Hn; lia].
  - destruct s as [|c s]; [constructor|]. cbn [replace_from].
    destruct (m prev (c :: s)) as [[repl len]|] eqn:Hm.
    + destruct (m_ins _ _ _ _ Hm) as [[H1 H2] Hi].
      destruct len as [|len]; [lia|]. cbn [Nat.pred].
      cbn in H2. rewrite replace_from_skip by lia.
      rewrite <- (take_drop (S len) (c :: s)) at 1.
      apply ins_app; [done|]. cbn [take drop]. rewrite prev_after_cons.
      apply IH. rewrite length_drop. cbn in Hn. lia.
    + constructor. apply IH. cbn in Hn. lia.
Qed.

Lemma replace_ins (s : text) : ins ok W None s (replace m s).
Proof. by apply (replace_from_ins (length s)). Qed.

(** The scan of a text whose front part [pre] holds no match that runs
    over its end: the front part is scanned by itself. *)
Lemma replace_from_front (rest : text) (n : nat) :
  forall (pre : text) (prev : option N),
    (length pre <= n)%nat ->
    (forall a b p repl len,
        pre = a ++ b -> b <> [] -> m p (b ++ rest) = Some (repl, len) ->
        (len <= length b)%nat) ->
    exists A,
      replace_from m 0 prev (pre ++ rest)
      = A ++ replace_from m 0 (prev_after prev pre) rest
      /\ sublist pre A.
Proof.
  induction n as [|n IH]; intros pre prev Hn Hin.
  - destruct pre; [|cbn in Hn; lia]. by exists [].
  - destruct pre as [|c pre]; [by exists []|].
    cbn [app replace_from].
    destruct (m prev (c :: pre ++ rest)) as [[repl len]|] eqn:Hm.
    + pose proof (Hin [] (c :: pre) prev repl len eq_refl ltac:(done) Hm) as Hlen.
      destruct (m_ins _ _ _ _ Hm) as [[H1 _] Hi].
      destruct len as [|len]; [lia|]. cbn [Nat.pred]. cbn in Hlen.
      rewrite replace_from_skip by (rewrite length_app; lia).
      rewrite take_app_le, drop_app_le by lia.
      destruct (IH (drop len pre) (prev_after (Some c) (take len pre)))
        as (A & -> & HA).
      { rewrite length_drop. cbn in Hn. lia. }
      { intros a b p r l Ea Hb Hmb.
        apply (Hin (c :: take len pre ++ a) b p r l); [|done|done].
        cbn. rewrite <- app_assoc, <- Ea. by rewrite take_drop. }
      exists (repl ++ A). rewrite <- app_assoc.
      rewrite <- prev_after_app, take_drop, prev_after_cons.
      split; [done|].
      apply ins_sublist in Hi. cbn [take] in Hi.
      rewrite take_app_le in Hi by lia.
      rewrite <- (take_drop len pre) at 1.
      rewrite app_comm_cons. by apply sublist_app.
    + destruct (IH pre (Some c)) as (A & -> & HA).
      { cbn in Hn. lia. }
      { intros a b p r l Ea Hb Hmb.
        apply (Hin (c :: a) b p r l); [|done|done]. by rewrite Ea. }
      exists (c :: A). rewrite prev_after_cons. split; [done|by constructor].
Qed.
End Scan.

End RegexFacts.

(** ** The playlist rewrite *)

Module RewriteFacts.
Import RewriteSpec StringFacts RegexFacts.

Lemma base_word_no_terminator (w : text) : base_word w -> no_terminator w.
Proof. intros [-> | ->]; unfold no_terminator; vm_compute; repeat constructor. Qed.

Lemma base_word_no_quote (w : text) : base_word w -> no_quote w.
Proof. intros [-> | ->]; unfold no_quote; vm_compute; repeat constructor. Qed.

Lemma uri_open_quote : prev_after None uri_open = Some quote.
Proof. reflexivity. Qed.

Lemma uri_open_after (prev : option N) : prev_after prev uri_open = Some quote.
Proof. reflexivity. Qed.

Lemma uri_open_eq : uri_open = [85; 82; 73; 61; quote].
Proof. reflexivity. Qed.

Lemma upstream_base_after (prev : option N) :
  after_quote (prev_after prev upstream_base) = false.
Proof. reflexivity. Qed.

Lemma ends_in_ext_mp4 (l : text) :
  endsWith ext_mp4 l = true -> last l = Some 52.
Proof.
  intros H. apply endsWith_spec in H as [t ->].
  change ext_mp4 with ([46; 109; 112] ++ [52]). by rewrite !app_assoc, last_snoc.
Qed.

Lemma ends_in_ext_ts (l : text) :
  endsWith ext_ts l = true -> last l = Some 115.
Proof.
  intros H. apply endsWith_spec in H as [t ->].
  change ext_ts with ([46; 116] ++ [115]). by rewrite !app_assoc, last_snoc.
Qed.

Lemma uri_open_no_terminator : no_terminator uri_open.
Proof. unfold no_terminator. vm_compute. repeat constructor. Qed.

Lemma length_uri_open : length uri_open = 5%nat.
Proof. reflexivity. Qed.

Lemma length_ext_mp4 : length ext_mp4 = 4%nat.
Proof. reflexivity. Qed.

(** The three heads that make a line absolute, a directive or a
    comment. *)
Lemma absolute_spec (l : text) :
  absolute_or_directive l = true ->
  exists p t, l = p ++ t /\ no_quote p /\ p <> []
              /\ forall t', absolute_or_directive (p ++ t') = true.
Proof.
  unfold absolute_or_directive. rewrite !orb_true_iff.
  intros [[H|H]|H]; apply startsWith_spec in H as [t ->].
  - exists (cu "http://"), t. split; [done|]. split.
    { unfold no_quote. vm_compute. repeat constructor. }
    split; [done|]. intros t'. by rewrite startsWith_app.
  - exists (cu "https://"), t. split; [done|]. split.
    { unfold no_quote. vm_compute. repeat constructor. }
    split; [done|]. intros t'. rewrite (startsWith_app (cu "https://")).
    by rewrite orb_true_r.
  - exists (cu "#"), t. split; [done|]. split.
    { unfold no_quote. vm_compute. repeat constructor. }
    split; [done|]. intros t'. rewrite (startsWith_app (cu "#")).
    by rewrite orb_true_r.
Qed.

Lemma ext_ts_wildcard : Forall (fun c => wildcard c = true) ext_ts.
Proof. vm_compute. repeat constructor. Qed.

Lemma ext_mp4_wildcard : Forall (fun c => wildcard c = true) ext_mp4.
Proof. vm_compute. repeat constructor. Qed.

Lemma ext_mp4_not_quote : Forall (fun c => not_quote c = true) ext_mp4.
Proof. vm_compute. repeat constructor. Qed.

(** *** The expressions in closed form *)

Lemma lookahead_closed (prev : option N) (s : text) (cap : option text) :
  run lookahead_body prev s cap (fun _ _ _ => Some tt)
  = if absolute_or_directive s then Some tt else None.
Proof.
  unfold absolute_or_directive.
  change (cu "http://") with (cu "http" ++ cu "://").
  change (cu "https://") with (cu "http" ++ cu "s" ++ cu "://").
  rewrite !startsWith_split. unfold lookahead_body. cbn [run].
  destruct (startsWith (cu "http") s);
    destruct (startsWith (cu "s") (drop (length (cu "http")) s));
    destruct (startsWith (cu "://")
                (drop (length (cu "s")) (drop (length (cu "http")) s)));
    destruct (startsWith (cu "://") (drop (length (cu "http")) s));
    destruct (startsWith (cu "#") s); reflexivity.
Qed.

#[local] Opaque uri_open proxy_base upstream_base ext_ts ext_mp4.

Lemma line_regex_closed (ext base : text) (prev : option N) (s : text) :
  Forall (fun c => wildcard c = true) ext ->
  regex_matcher (line_regex ext) [Text base; Group1] prev s
  = line_matcher ext base prev s.
Proof.
  intros Hext. unfold regex_matcher, exec, line_regex, line_matcher. cbn [run].
  destruct (at_line_start prev); [|done]. rewrite lookahead_closed.
  destruct (absolute_or_directive s); [done|]. cbn [andb negb].
  pose proof (span_prefix wildcard s) as Hs.
  pose proof (span_all wildcard s) as Hl.
  set (l := span wildcard s) in *. set (rest := drop (length l) s) in *.
  assert (Hrest : match rest with [] => True | c :: _ => wildcard c = false end).
  { destruct rest as [|c t] eqn:E; [done|]. by apply (span_stop wildcard s c t). }
  set (stop := fun t : text => match t with
                               | [] => true
                               | c :: _ => is_line_terminator c
                               end).
  set (F := fun s' : text =>
              ((length s - length (drop (length ext) s'))%nat,
               Some (take (length s - length (drop (length ext) s')) s))).
  rewrite (greedy_ext wildcard _
             (fun _ s' => if startsWith ext s' && stop (drop (length ext) s')
                          then Some (F s') else None)).
  2:{ intros p t. destruct (startsWith ext t); [|done]. cbn [andb].
      unfold stop, F. by destruct (drop (length ext) t) as [|c u];
        [|destruct (is_line_terminator c)]. }
  rewrite <- Hs at 1.
  rewrite (greedy_then_ext wildcard ext stop F rest Hext Hrest); [|by intros c t; unfold wildcard, stop; destruct (is_line_terminator c)|done].
  assert (Hstop : stop rest = true).
  { unfold stop. destruct rest as [|c t]; [done|].
    unfold wildcard in Hrest. by destruct (is_line_terminator c). }
  rewrite Hstop, andb_true_r. unfold has_ext.
  destruct (endsWith ext l && (length ext <? length l)%nat); [|done].
  unfold F. rewrite drop_app_length.
  assert (Hlen : (length s - length rest)%nat = length l).
  { rewrite <- Hs at 1. rewrite length_app. lia. }
  rewrite Hlen. rewrite <- Hs at 1. rewrite take_app_length.
  cbn. by rewrite app_nil_r.
Qed.

Lemma uri_regex_closed (prev : option N) (s : text) :
  regex_matcher uri_regex uri_template prev s = uri_matcher prev s.
Proof.
  unfold regex_matcher, exec, uri_regex, uri_matcher. cbn [run].
  destruct (startsWith uri_open s) eqn:Es; [|done].
  set (s1 := drop (length uri_open) s).
  pose proof (span_prefix not_quote s1) as Hs.
  pose proof (span_all not_quote s1) as Hl.
  set (r := span not_quote s1) in *. set (rest := drop (length r) s1) in *.
  assert (Hrest : match rest with [] => True | c :: _ => not_quote c = false end).
  { destruct rest as [|c t] eqn:E; [done|]. by apply (span_stop not_quote s1 c t). }
  set (F := fun s' : text =>
              ((length s - length (drop (length [quote]) (drop (length ext_mp4) s')))%nat,
               Some (take (length s1 - length (drop (length ext_mp4) s')) s1))).
  rewrite (greedy_ext not_quote _
             (fun _ s' => if startsWith ext_mp4 s'
                             && startsWith [quote] (drop (length ext_mp4) s')
                          then Some (F s') else None)).
  2:{ intros p t. destruct (startsWith ext_mp4 t); [|done]. cbn [andb].
      by destruct (startsWith [quote] (drop (length ext_mp4) t)). }
  rewrite <- Hs at 1.
  rewrite (greedy_then_ext not_quote ext_mp4 (startsWith [quote]) F rest
             ext_mp4_not_quote Hrest); [| |done].
  2:{ intros c t Hc. cbn [startsWith]. unfold not_quote in Hc.
      rewrite N.eqb_sym. by destruct (c =? quote). }
  unfold has_ext. destruct rest as [|q t] eqn:Er.
  { cbn. by rewrite andb_false_r. }
  cbn in Hrest. unfold not_quote in Hrest. apply negb_false_iff, N.eqb_eq in Hrest.
  subst q. cbn [startsWith]. rewrite N.eqb_refl. cbn [andb]. rewrite andb_true_r.
  destruct (endsWith ext_mp4 r && (length ext_mp4 <? length r)%nat); [|done].
  unfold F. rewrite drop_app_length. cbn [length drop].
  apply startsWith_spec in Es as [s1' Es].
  assert (Es1 : s1 = s1') by (unfold s1; by rewrite Es, drop_app_length).
  assert (Hr : take (length s1 - S (length t)) s1 = r).
  { rewrite <- Hs. rewrite length_app. cbn [length].
    replace (length r + S (length t) - S (length t))%nat with (length r) by lia.
    by rewrite take_app_length. }
  assert (Hn : (length s - length (drop 0 t))%nat
               = (length uri_open + length r + 1)%nat).
  { rewrite Es, length_app, <- Es1.
    replace (length s1) with (length (r ++ quote :: t)) by (by rewrite Hs).
    rewrite length_app, drop_0. cbn [length]. lia. }
  rewrite Hr, Hn. unfold expand, uri_template. cbn [flat_map default].
  by rewrite app_nil_r.
Qed.

Lemma replace_ts_closed (x : text) :
  replace_ts x = replace (line_matcher ext_ts upstream_base) x.
Proof.
  apply replace_from_ext. intros prev t. apply line_regex_closed, ext_ts_wildcard.
Qed.

Lemma replace_mp4_closed (x : text) :
  replace_mp4 x = replace (line_matcher ext_mp4 proxy_base) x.
Proof.
  apply replace_from_ext. intros prev t. apply line_regex_closed, ext_mp4_wildcard.
Qed.

Lemma replace_uri_closed (x : text) : replace_uri x = replace uri_matcher x.
Proof. apply replace_from_ext. intros prev t. apply uri_regex_closed. Qed.

Lemma ext_exclusive (l : text) :
  has_ext ext_mp4 l = true -> has_ext ext_ts l = false.
Proof.
  unfold has_ext. intros H. apply andb_true_iff in H as [H _].
  apply ends_in_ext_mp4 in H.
  destruct (endsWith ext_ts l) eqn:E; [|done].
  apply ends_in_ext_ts in E. congruence.
Qed.

Lemma line_matcher_inserting (ext base : text) :
  base_word base -> inserting at_line_start base_word (line_matcher ext base).
Proof.
  intros Hb prev s repl len. unfold line_matcher.
  destruct (at_line_start prev && negb (absolute_or_directive s)) eqn:E; [|done].
  set (l := span wildcard s).
  destruct (endsWith ext l && (length ext <? length l)%nat) eqn:E2; [|done].
  intros [= <- <-]. apply andb_true_iff in E as [E _].
  apply andb_true_iff in E2 as [_ E2]. apply Nat.ltb_lt in E2.
  split.
  - split; [lia|]. rewrite <- (span_prefix wildcard s).
    fold l. rewrite length_app. lia.
  - unfold l. rewrite span_take. constructor; [done|done|apply ins_refl].
Qed.

Lemma uri_matcher_inserting : inserting after_quote base_word uri_matcher.
Proof.
  intros prev s repl len. unfold uri_matcher.
  destruct (startsWith uri_open s) eqn:Es; [|done].
  apply startsWith_spec in Es as [s1 ->]. rewrite drop_app_length.
  set (r := span not_quote s1).
  destruct (drop (length r) s1) as [|q t] eqn:Ed; [done|].
  destruct (endsWith ext_mp4 r && (length ext_mp4 <? length r)%nat); [|done].
  intros [= <- <-].
  pose proof (span_prefix not_quote s1) as Hs1.
  fold r in Hs1. rewrite Ed in Hs1.
  apply span_stop in Ed. apply negb_false_iff, N.eqb_eq in Ed. subst q.
  split.
  - rewrite <- Hs1, !length_app. cbn. lia.
  - rewrite <- Hs1.
    replace (take (length uri_open + length r + 1) (uri_open ++ r ++ quote :: t))
      with (uri_open ++ r ++ [quote]).
    + apply ins_app; [apply ins_refl|]. rewrite uri_open_after.
      constructor; [done|by right|apply ins_refl].
    + rewrite <- Nat.add_assoc, take_app_add' by done.
      f_equal. rewrite (take_app_add' r) by done. done.
Qed.

Lemma split_by_cons (p : N -> bool) (s : text) : exists l ls, split_by p s = l :: ls.
Proof.
  induction s as [|c s (l & ls & IH)]; cbn; [eauto|].
  destruct (p c); [eauto|]. rewrite IH. eauto.
Qed.

Lemma split_by_word (p : N -> bool) (w s l : text) (ls : list text) :
  Forall (fun c => p c = false) w ->
  split_by p s = l :: ls -> split_by p (w ++ s) = (w ++ l) :: ls.
Proof.
  intros Hw Hs. induction Hw as [|c w Hc _ IH]; [done|].
  cbn. by rewrite Hc, IH.
Qed.

(** Putting in words that hold no separator keeps the pieces, each with
    what was put into it. *)
Lemma ins_split_by (ok : option N -> bool) (W : text -> Prop) (p : N -> bool)
    (prev : option N) (x y : text) :
  (forall w, W w -> Forall (fun c => p c = false) w) ->
  ins ok W prev x y ->
  Forall2 sublist (split_by p x) (split_by p y).
Proof.
  intros HW. induction 1 as [prev|prev c x y _ IH|prev w x y _ Hw _ IH].
  - repeat constructor.
  - cbn. destruct (p c); [by constructor|].
    destruct (split_by_cons p x) as (l & ls & El).
    destruct (split_by_cons p y) as (u & us & Eu).
    rewrite El, Eu in *. inversion IH; subst. constructor; [by constructor|done].
  - destruct (split_by_cons p y) as (u & us & Eu).
    rewrite (split_by_word p w y u us) by auto.
    rewrite Eu in IH. inversion IH; subst.
    constructor; [by apply sublist_inserts_l|done].
Qed.

Lemma sublist_pieces (l1 l2 l3 : list text) :
  Forall2 sublist l1 l2 -> Forall2 sublist l2 l3 -> Forall2 sublist l1 l3.
Proof.
  intros H. revert l3. induction H as [|a b l1 l2 Hab _ IH]; intros l3 H3.
  - inversion H3. constructor.
  - inversion H3; subst. constructor; [by etrans|by apply IH].
Qed.

(** The three passes, as scans that put words in. *)
Lemma replace_ts_ins (x : text) : ins at_line_start base_word None x (replace_ts x).
Proof. rewrite replace_ts_closed. apply replace_ins, line_matcher_inserting. by left. Qed.

Lemma replace_uri_ins (x : text) : ins after_quote base_word None x (replace_uri x).
Proof. rewrite replace_uri_closed. apply replace_ins, uri_matcher_inserting. Qed.

Lemma replace_mp4_ins (x : text) : ins at_line_start base_word None x (replace_mp4 x).
Proof. rewrite replace_mp4_closed. apply replace_ins, line_matcher_inserting. by right. Qed.

Lemma rewrite_pieces (p : N -> bool) (x : text) :
  (forall c, p c = true -> is_line_terminator c = true) ->
  Forall2 sublist (split_by p x) (split_by p (rewrite x)).
Proof.
  intros Hp.
  assert (HW : forall w, base_word w -> Forall (fun c => p c = false) w).
  { intros w Hw. eapply Forall_impl; [apply (base_word_no_terminator w Hw)|].
    intros c Hc. cbn in Hc. destruct (p c) eqn:E; [|done].
    apply Hp in E. congruence. }
  unfold rewrite.
  eapply sublist_pieces; [|eapply ins_split_by, replace_mp4_ins; done].
  eapply sublist_pieces; [|eapply ins_split_by, replace_uri_ins; done].
  eapply ins_split_by, replace_ts_ins; done.
Qed.

(** C8: the text and its rewrite have the same number of lines, and each
    line of the rewrite is the line of the text at the same place with
    code units put in; both for the lines of [split('\n')] and for the
    lines the regular expressions see. *)
Theorem rewrite_keeps_lines (x : text) :
  length (split_on 10 (rewrite x)) = length (split_on 10 x)
  /\ Forall2 sublist (split_on 10 x) (split_on 10 (rewrite x))
  /\ length (lines (rewrite x)) = length (lines x)
  /\ Forall2 sublist (lines x) (lines (rewrite x)).
Proof.
  assert (H10 : Forall2 sublist (split_on 10 x) (split_on 10 (rewrite x))).
  { apply rewrite_pieces. intros c Hc. apply N.eqb_eq in Hc. by subst c. }
  assert (Hl : Forall2 sublist (lines x) (lines (rewrite x))).
  { by apply rewrite_pieces. }
  split; [symmetry; by eapply Forall2_length|]. split; [done|].
  split; [symmetry; by eapply Forall2_length|done].
Qed.

(** *** The line-anchored passes, line by line *)

Lemma terminator_not_in (p : text) (c : N) :
  no_terminator p -> is_line_terminator c = true -> c ∉ p.
Proof.
  intros Hp Hc Hin. unfold no_terminator in Hp.
  rewrite Forall_forall in Hp. apply Hp in Hin. congruence.
Qed.

Lemma absolute_cut (l rest : text) :
  line_end rest -> absolute_or_directive (l ++ rest) = absolute_or_directive l.
Proof.
  destruct rest as [|c r]; [by rewrite app_nil_r|]. cbn. intros Hc.
  unfold absolute_or_directive.
  rewrite !startsWith_cut; [done| | |];
    (apply terminator_not_in; [|done]); unfold no_terminator;
    vm_compute; repeat constructor.
Qed.

Section LinePass.
Context (ext base : text).
Let m := line_matcher ext base.
Let f := line_out ext base.

Lemma line_matcher_at_end (prev : option N) (rest : text) :
  line_end rest -> rest <> [] -> m prev rest = None.
Proof.
  destruct rest as [|c r]; [done|]. cbn. intros Hc _.
  unfold m, line_matcher. cbn [span]. unfold wildcard. rewrite Hc. cbn.
  rewrite andb_false_r. by destruct (_ && _).
Qed.

Lemma line_matcher_inside (prev : option N) (s : text) :
  at_line_start prev = false -> m prev s = None.
Proof. intros H. unfold m, line_matcher. by rewrite H. Qed.

Lemma line_matcher_line (prev : option N) (l rest : text) :
  no_terminator l -> line_end rest -> at_line_start prev = true ->
  m prev (l ++ rest)
  = if relative l && has_ext ext l then Some (base ++ l, length l) else None.
Proof.
  intros Hl Hr Hp. unfold m, line_matcher. rewrite Hp, absolute_cut by done.
  replace (span wildcard (l ++ rest)) with l.
  { unfold relative, has_ext. cbn [andb].
    by destruct (absolute_or_directive l), (endsWith ext l && _). }
  destruct rest as [|c r].
  - rewrite app_nil_r. symmetry. by apply span_whole, negb_forall.
  - symmetry. apply span_line; [by apply negb_forall|].
    cbn in Hr. unfold wildcard. by rewrite Hr.
Qed.

Lemma tail_out_end (prev : option N) (rest : text) :
  line_end rest -> replace_from m 0 prev rest = tail_out m rest.
Proof.
  intros Hr. destruct rest as [|c r]; [done|]. cbn [replace_from tail_out].
  by rewrite line_matcher_at_end.
Qed.

Lemma copy_line (rest : text) (l : text) :
  forall prev : option N,
    no_terminator l -> line_end rest -> at_line_start prev = false ->
    replace_from m 0 prev (l ++ rest) = l ++ tail_out m rest.
Proof.
  induction l as [|c l IH]; intros prev Hl Hr Hp.
  - by apply tail_out_end.
  - inversion Hl; subst. cbn [app replace_from].
    rewrite line_matcher_inside by done. f_equal. by apply IH.
Qed.

Lemma scan_line (rest : text) (l : text) (prev : option N) :
  no_terminator l -> line_end rest -> at_line_start prev = true ->
  replace_from m 0 prev (l ++ rest) = f l ++ tail_out m rest.
Proof.
  intros Hl Hr Hp. pose proof (line_matcher_line prev l rest Hl Hr Hp) as Hm.
  unfold f, line_out. destruct l as [|c l].
  - rewrite has_ext_nil, andb_false_r. by apply tail_out_end.
  - inversion Hl; subst. cbn [app replace_from]. cbn [app] in Hm. rewrite Hm.
    destruct (relative (c :: l) && has_ext ext (c :: l)).
    + cbn [length Nat.pred]. rewrite replace_from_skip by (rewrite length_app; lia).
      rewrite take_app_length, drop_app_length.
      f_equal. by apply tail_out_end.
    + cbn. f_equal. by apply copy_line.
Qed.

Lemma scan_unlines (ls : list (N * text)) :
  forall (l0 : text) (prev : option N),
    wf_lines l0 ls -> at_line_start prev = true ->
    replace_from m 0 prev (unlines l0 ls)
    = unlines (f l0) (List.map (fun cl => (fst cl, f (snd cl))) ls).
Proof.
  induction ls as [|[c l] ls IH]; intros l0 prev [H0 Hls] Hp.
  - unfold unlines. cbn [flat_map List.map].
    by rewrite scan_line.
  - inversion Hls as [|? ? [Hc Hl] Hls']; subst. cbn in Hc, Hl.
    unfold unlines. cbn [flat_map List.map fst snd].
    rewrite scan_line by done. f_equal. cbn [tail_out app]. f_equal.
    apply (IH l (Some c)); [by split|done].
Qed.
End LinePass.

(** *** Texts as lines *)

Lemma unlines_split_at (p : N -> bool) (x : text) :
  unlines (split_at p x).1 (split_at p x).2 = x.
Proof.
  induction x as [|c x IH]; [done|]. cbn [split_at].
  destruct (split_at p x) as [l ls]. cbn in IH.
  destruct (p c); cbn; by rewrite <- IH.
Qed.

Lemma split_at_wf (x : text) :
  wf_lines (split_at is_line_terminator x).1 (split_at is_line_terminator x).2.
Proof.
  induction x as [|c x IH].
  - split; constructor.
  - cbn [split_at]. destruct (split_at is_line_terminator x) as [l ls].
    destruct IH as [IH0 IH]. cbn in IH0, IH.
    destruct (is_line_terminator c) eqn:Hc; split; cbn.
    + constructor.
    + by constructor.
    + by constructor.
    + done.
Qed.

Lemma split_at_unlines (ls : list (N * text)) :
  forall l0 : text,
    wf_lines l0 ls -> split_at is_line_terminator (unlines l0 ls) = (l0, ls).
Proof.
  induction ls as [|[c l] ls IH]; intros l0 [H0 Hls].
  - unfold unlines. cbn. rewrite app_nil_r.
    induction H0 as [|d l0 Hd _ IH0]; [done|]. cbn. by rewrite IH0, Hd.
  - inversion Hls as [|? ? [Hc Hl] Hls']; subst. cbn in Hc, Hl.
    assert (Hrec : split_at is_line_terminator (c :: unlines l ls) = ([], (c, l) :: ls)).
    { cbn. rewrite IH by done. by rewrite Hc. }
    unfold unlines in *. cbn [flat_map fst snd app].
    induction H0 as [|d l0 Hd _ IH0]; [done|].
    cbn [app split_at]. rewrite IH0. by rewrite Hd.
Qed.

Lemma lines_split_at (x : text) :
  lines x = (split_at is_line_terminator x).1
            :: List.map snd (split_at is_line_terminator x).2.
Proof.
  unfold lines. induction x as [|c x IH]; [done|]. cbn [split_by split_at].
  rewrite IH. destruct (split_at is_line_terminator x) as [l ls].
  by destruct (is_line_terminator c).
Qed.

Section MapLines.
Context (f : text -> text).
Hypothesis f_line : forall l, no_terminator l -> no_terminator (f l).

Lemma map_wf (l0 : text) (ls : list (N * text)) :
  wf_lines l0 ls -> wf_lines (f l0) (List.map (fun cl => (fst cl, f (snd cl))) ls).
Proof.
  intros [H0 Hls]. split; [by apply f_line|].
  induction Hls as [|[c l] ls [Hc Hl] _ IH]; constructor; [|done].
  split; [done|by apply f_line].
Qed.

Lemma lines_map_lines (x : text) : lines (map_lines f x) = List.map f (lines x).
Proof.
  rewrite !lines_split_at. unfold map_lines.
  pose proof (split_at_wf x) as Hwf.
  destruct (split_at is_line_terminator x) as [l0 ls]. cbn [fst snd] in *.
  rewrite split_at_unlines by by apply map_wf.
  cbn. f_equal. rewrite !List.map_map. done.
Qed.

Lemma map_lines_idem (x : text) :
  (forall l, no_terminator l -> f (f l) = f l) ->
  map_lines f (map_lines f x) = map_lines f x.
Proof.
  intros Hf. unfold map_lines at 2 3.
  pose proof (split_at_wf x) as Hwf.
  destruct (split_at is_line_terminator x) as [l0 ls]. cbn [fst snd] in *.
  unfold map_lines. rewrite split_at_unlines by by apply map_wf.
  destruct Hwf as [H0 Hls]. rewrite Hf by done. f_equal.
  rewrite List.map_map. cbn.
  induction Hls as [|[c l] ls [Hc Hl] _ IH]; [done|]. cbn in *.
  by rewrite Hf, IH.
Qed.
End MapLines.

Lemma line_out_line (ext base l : text) :
  base_word base -> no_terminator l -> no_terminator (line_out ext base l).
Proof.
  intros Hb Hl. unfold line_out. destruct (_ && _); [|done].
  apply Forall_app. split; [by apply base_word_no_terminator|done].
Qed.

(** A line-anchored pass is its substitution on every line. *)
Lemma replace_line_exact (ext base x : text) :
  replace (line_matcher ext base) x = map_lines (line_out ext base) x.
Proof.
  unfold map_lines, replace. pose proof (split_at_wf x) as Hwf.
  rewrite <- (unlines_split_at is_line_terminator x) at 1.
  destruct (split_at is_line_terminator x) as [l0 ls]. cbn [fst snd] in *.
  by apply scan_unlines.
Qed.

(** *** A second rewrite *)

Lemma upstream_absolute (l : text) : absolute_or_directive (upstream_base ++ l) = true.
Proof.
  unfold absolute_or_directive.
  assert (H : startsWith (cu "https://") (upstream_base ++ l) = true).
  { apply startsWith_spec. exists (drop 8 upstream_base ++ l). reflexivity. }
  rewrite H. apply orb_true_iff. left. apply orb_true_r.
Qed.

Lemma line_out_ts_idem (l : text) :
  line_out ext_ts upstream_base (line_out ext_ts upstream_base l)
  = line_out ext_ts upstream_base l.
Proof.
  destruct (relative l && has_ext ext_ts l) eqn:E.
  - assert (line_out ext_ts upstream_base l = upstream_base ++ l) as ->
      by (unfold line_out; by rewrite E).
    unfold line_out, relative. by rewrite upstream_absolute.
  - assert (line_out ext_ts upstream_base l = l) as ->
      by (unfold line_out; by rewrite E).
    unfold line_out. by rewrite E.
Qed.

Lemma replace_ts_idem (x : text) : replace_ts (replace_ts x) = replace_ts x.
Proof.
  rewrite !replace_ts_closed, !replace_line_exact.
  apply map_lines_idem.
  - intros l. apply line_out_line. by left.
  - intros l _. apply line_out_ts_idem.
Qed.

Lemma replace_uri_no_quote (x : text) : no_quote x -> replace_uri x = x.
Proof.
  intros Hx. eapply ins_fixed; [apply replace_uri_ins|done|].
  eapply Forall_impl; [exact Hx|]. by intros c Hc.
Qed.

Lemma map_lines_fixed (f : text -> text) (x : text) :
  Forall (fun l => f l = l) (lines x) -> map_lines f x = x.
Proof.
  rewrite lines_split_at. unfold map_lines. intros H.
  rewrite <- (unlines_split_at is_line_terminator x) at 2.
  destruct (split_at is_line_terminator x) as [l0 ls]. cbn [fst snd] in *.
  inversion H as [|? ? H0 Hls]; subst. rewrite H0. f_equal.
  clear H H0. induction ls as [|[c l] ls IH]; [done|].
  cbn in *. inversion Hls as [|? ? Hl Hls']; subst. by rewrite Hl, IH.
Qed.

Lemma line_out_absolute (ext base l : text) :
  absolute_or_directive l = true -> line_out ext base l = l.
Proof. intros H. unfold line_out, relative. by rewrite H. Qed.

(** A text without double quotes in which no relative line has the
    container extension: the container substitutions find nothing. *)
Lemma segments_only_rewrite (x : text) :
  no_quote x ->
  Forall (fun l => relative l && has_ext ext_mp4 l = false) (lines x) ->
  rewrite x = replace_ts x.
Proof.
  intros Hq Hl. unfold rewrite.
  rewrite (replace_uri_no_quote (replace_ts x)).
  2:{ eapply ins_forall; [|apply replace_ts_ins|exact Hq].
      intros w Hw. by apply base_word_no_quote. }
  rewrite replace_mp4_closed, replace_ts_closed, !replace_line_exact.
  apply map_lines_fixed.
  rewrite lines_map_lines by (intros l; apply line_out_line; by left).
  apply Forall_fmap. eapply Forall_impl; [exact Hl|]. cbn. intros l El.
  unfold line_out at 2 3. destruct (relative l && has_ext ext_ts l).
  - apply line_out_absolute, upstream_absolute.
  - unfold line_out. by rewrite El.
Qed.




(** *** The rules, line by line *)

Lemma line_start_not_after_quote (q : option N) :
  at_line_start q = true -> after_quote q = false.
Proof.
  destruct q as [c|]; [|done]. cbn. intros Hc.
  destruct (N.eqb_spec c quote) as [->|]; [|done]. by vm_compute in Hc.
Qed.

Lemma no_quote_after (l : text) :
  no_quote l -> Forall (fun c => after_quote (Some c) = false) l.
Proof. intros H. eapply Forall_impl; [exact H|]. by intros c Hc. Qed.

Lemma no_terminator_start (l : text) :
  no_terminator l -> Forall (fun c => at_line_start (Some c) = false) l.
Proof. intros H. eapply Forall_impl; [exact H|]. by intros c Hc. Qed.

(** Words without terminators go into lines: the first line is read from
    where the text is read, every other from a line start. *)
Lemma ins_lines (ok : option N -> bool) (W : text -> Prop) (prev : option N) (x y : text) :
  (forall w, W w -> no_terminator w) ->
  ins ok W prev x y ->
  exists l ls u us,
    lines x = l :: ls /\ lines y = u :: us /\ ins ok W prev l u
    /\ Forall2 (fun l u => exists q, at_line_start q = true /\ ins ok W q l u) ls us.
Proof.
  intros HW. unfold lines.
  induction 1 as [prev|prev c x y _ IH|prev w x y Hok Hw _ IH].
  - exists [], [], [], []. repeat split; constructor.
  - destruct IH as (l & ls & u & us & El & Eu & Hlu & Hrest). cbn [split_by].
    rewrite El, Eu. destruct (is_line_terminator c) eqn:Hc.
    + exists [], (l :: ls), [], (u :: us). repeat split; [constructor|].
      constructor; [|done]. exists (Some c). by split.
    + exists (c :: l), ls, (c :: u), us. repeat split; [by constructor|done].
  - destruct IH as (l & ls & u & us & El & Eu & Hlu & Hrest).
    exists l, ls, (w ++ u), us. split; [done|].
    split; [by apply split_by_word; [apply HW|]|].
    split; [by constructor|done].
Qed.

Lemma replace_uri_lines (y : text) :
  Forall2 (fun l u => exists q, at_line_start q = true /\ ins after_quote base_word q l u)
    (lines y) (lines (replace_uri y)).
Proof.
  destruct (ins_lines after_quote base_word None y (replace_uri y)
              base_word_no_terminator (replace_uri_ins y))
    as (l & ls & u & us & -> & -> & Hlu & Hrest).
  constructor; [|done]. by exists None.
Qed.

(** What the three passes make of one line [l] of the text. *)
Lemma rewrite_lines (x : text) :
  Forall2 (fun l l' => exists q u,
             at_line_start q = true
             /\ ins after_quote base_word q (line_out ext_ts upstream_base l) u
             /\ l' = line_out ext_mp4 proxy_base u)
    (lines x) (lines (rewrite x)).
Proof.
  unfold rewrite. rewrite replace_mp4_closed, replace_line_exact.
  rewrite lines_map_lines by (intros l; apply line_out_line; by right).
  apply Forall2_fmap_r.
  pose proof (replace_uri_lines (replace_ts x)) as H.
  rewrite replace_ts_closed, replace_line_exact in *.
  rewrite lines_map_lines in H by (intros l; apply line_out_line; by left).
  apply Forall2_fmap_l in H.
  eapply Forall2_impl; [exact H|]. cbn. intros l u (q & Hq & Hi).
  by exists q, u.
Qed.

Lemma no_quote_prev_after (q : option N) (p : text) :
  no_quote p -> after_quote q = false -> after_quote (prev_after q p) = false.
Proof.
  intros Hp Hq. unfold prev_after. destruct (last p) as [c|] eqn:E; [|done].
  apply last_Some in E as [p' ->]. apply Forall_app in Hp as [_ Hc].
  by inversion Hc.
Qed.

(** The rules for one line, from what the passes make of it. *)
Lemma line_rules (l l' u : text) (q : option N) :
  at_line_start q = true ->
  ins after_quote base_word q (line_out ext_ts upstream_base l) u ->
  l' = line_out ext_mp4 proxy_base u ->
  (relative l = true -> has_ext ext_ts l = true ->
     exists v, l' = upstream_base ++ v /\ sublist l v /\ (no_quote l -> v = l))
  /\ (relative l = true -> has_ext ext_mp4 l = true -> no_quote l ->
      l' = proxy_base ++ l)
  /\ (absolute_or_directive l = true ->
      sublist l l' /\ (no_quote l -> l' = l)).
Proof.
  intros Hq Hi ->. apply line_start_not_after_quote in Hq.
  split; [|split].
  - intros Hr He.
    assert (E : line_out ext_ts upstream_base l = upstream_base ++ l)
      by (unfold line_out; by rewrite Hr, He).
    rewrite E in Hi.
    destruct (ins_prefix _ _ upstream_base q l u Hi Hq) as (v & -> & Hv).
    { apply no_quote_after, base_word_no_quote. by left. }
    exists v. split; [apply line_out_absolute, upstream_absolute|].
    split; [by eapply ins_sublist|]. intros Hl.
    eapply ins_fixed; [exact Hv|apply upstream_base_after|by apply no_quote_after].
  - intros Hr He Hl.
    assert (E : line_out ext_ts upstream_base l = l)
      by (unfold line_out; by rewrite (ext_exclusive l He), andb_false_r).
    rewrite E in Hi.
    rewrite (ins_fixed _ _ q l u Hi Hq (no_quote_after l Hl)).
    unfold line_out. by rewrite Hr, He.
  - intros Ha. rewrite (line_out_absolute _ _ l Ha) in Hi.
    destruct (absolute_spec l Ha) as (p & t & -> & Hp & Hne & Habs).
    destruct (ins_prefix _ _ p q t u Hi Hq (no_quote_after p Hp)) as (t' & -> & Ht').
    rewrite (line_out_absolute _ _ _ (Habs t')). split.
    + apply sublist_app; [done|]. by eapply ins_sublist.
    + intros Hl. apply Forall_app in Hl as [_ Hl]. f_equal.
      eapply ins_fixed; [exact Ht'| |by apply no_quote_after].
      by apply no_quote_prev_after.
Qed.

(** *** The attribute pass *)

Lemma uri_matcher_some (prev : option N) (s repl : text) (len : nat) :
  uri_matcher prev s = Some (repl, len) ->
  exists r t,
    s = uri_open ++ r ++ quote :: t /\ no_quote r /\ has_ext ext_mp4 r = true
    /\ repl = uri_open ++ proxy_base ++ r ++ [quote]
    /\ len = (length uri_open + length r + 1)%nat.
Proof.
  unfold uri_matcher.
  destruct (startsWith uri_open s) eqn:Es; [|done].
  apply startsWith_spec in Es as [s1 ->]. rewrite drop_app_length.
  set (r := span not_quote s1).
  destruct (drop (length r) s1) as [|q t] eqn:Ed; [done|].
  destruct (endsWith ext_mp4 r && (length ext_mp4 <? length r)%nat) eqn:He; [|done].
  intros [= <- <-].
  pose proof (span_prefix not_quote s1) as Hs1.
  fold r in Hs1. rewrite Ed in Hs1.
  apply span_stop in Ed. apply negb_false_iff, N.eqb_eq in Ed. subst q.
  exists r, t. rewrite Hs1. split; [done|]. split; [|done].
  eapply Forall_impl; [apply span_all|]. intros c Hc. by apply negb_true_iff in Hc.
Qed.

Lemma uri_matcher_hit (prev : option N) (r t : text) :
  no_quote r -> has_ext ext_mp4 r = true ->
  uri_matcher prev (uri_open ++ r ++ quote :: t)
  = Some (uri_open ++ proxy_base ++ r ++ [quote], (length uri_open + length r + 1)%nat).
Proof.
  intros Hr He. unfold uri_matcher. rewrite startsWith_app, drop_app_length.
  rewrite span_line; [|by apply negb_forall|done].
  rewrite drop_app_length. unfold has_ext in He. by rewrite He.
Qed.

(** A match of the attribute expression never runs into the opening of
    a later attribute: its value would hold that quote, or end in
    [URI=]. *)
Lemma uri_no_straddle (b t : text) (p : option N) (repl : text) (len : nat) :
  b <> [] ->
  uri_matcher p (b ++ uri_open ++ t) = Some (repl, len) ->
  (len <= length b)%nat.
Proof.
  intros Hb Hm.
  destruct (uri_matcher_some _ _ _ _ Hm) as (r0 & t0 & Es & Hr0 & He & _ & ->).
  rewrite length_uri_open.
  destruct (decide (5 + length r0 + 1 <= length b)%nat) as [|Hn]; [done|exfalso].
  assert (Hlen : (1 <= length b)%nat) by (destruct b; cbn; [done|lia]).
  unfold has_ext in He. apply andb_true_iff in He as [He Hl].
  apply ends_in_ext_mp4 in He. rewrite last_lookup in He.
  apply Nat.ltb_lt in Hl. rewrite length_ext_mp4 in Hl.
  assert (HA : forall k, (k < 5)%nat ->
             (b ++ uri_open ++ t) !! (length b + k)%nat
             = [85; 82; 73; 61; quote] !! k).
  { intros k Hk. rewrite lookup_mid by (by rewrite length_uri_open).
    by rewrite uri_open_eq. }
  assert (HB : forall j, (j < length r0)%nat ->
             (b ++ uri_open ++ t) !! (5 + j)%nat = r0 !! j).
  { intros j Hj. rewrite Es, <- length_uri_open. by apply lookup_mid. }
  assert (HC : (b ++ uri_open ++ t) !! (5 + length r0)%nat = Some quote).
  { rewrite Es, app_assoc, <- length_uri_open, <- length_app.
    by rewrite (lookup_app_r (uri_open ++ r0)), Nat.sub_diag by lia. }
  assert (HQ : forall j c, r0 !! j = Some c -> c <> quote).
  { intros j c Hj ->. unfold no_quote in Hr0.
    rewrite Forall_lookup in Hr0. by specialize (Hr0 j quote Hj). }
  destruct (decide (length b <= length r0)%nat) as [Hle|Hgt].
  - (* the quote of the later opening lies inside the value *)
    specialize (HA 4%nat ltac:(lia)). specialize (HB (length b - 1)%nat ltac:(lia)).
    replace (5 + (length b - 1))%nat with (length b + 4)%nat in HB by lia.
    rewrite HA in HB. cbn in HB. symmetry in HB. by apply HQ in HB.
  - destruct (decide (length b = length r0 + 1)%nat) as [E1|N1].
    + (* the value ends in [URI=] *)
      specialize (HA 3%nat ltac:(lia)). specialize (HB (length r0 - 1)%nat ltac:(lia)).
      replace (5 + (length r0 - 1))%nat with (length b + 3)%nat in HB by lia.
      replace (Nat.pred (length r0)) with (length r0 - 1)%nat in He by lia.
      rewrite HA, He in HB. cbn in HB. discriminate.
    + (* the closing quote would be one of [U], [R], [I], [=] *)
      assert (Hk : exists k, (k < 4)%nat /\ (5 + length r0 = length b + k)%nat).
      { exists (5 + length r0 - length b)%nat. lia. }
      destruct Hk as (k & Hk & Ek). rewrite Ek in HC.
      rewrite HA in HC by lia.
      destruct k as [|[|[|[|k]]]]; cbn in HC; try discriminate. lia.
Qed.

Lemma replace_uri_attribute (pre r post : text) :
  no_quote r -> has_ext ext_mp4 r = true ->
  exists A C,
    replace_uri (pre ++ uri_open ++ r ++ quote :: post)
    = A ++ uri_open ++ proxy_base ++ r ++ quote :: C
    /\ sublist pre A /\ sublist post C.
Proof.
  intros Hr He. rewrite replace_uri_closed. unfold replace.
  destruct (replace_from_front after_quote base_word uri_matcher uri_matcher_inserting
              (uri_open ++ r ++ quote :: post) (length pre) pre None)
    as (A & -> & HA); [done| |].
  { intros a b p repl len _ Hb Hm. by eapply uri_no_straddle. }
  rewrite (replace_from_match _ _ _ _ _ (uri_matcher_hit _ r post Hr He)).
  2:{ rewrite !length_app. cbn. lia. }
  set (C := replace_from uri_matcher 0 _ _).
  exists A, C. split; [by rewrite <- !app_assoc|]. split; [done|].
  unfold C.
  replace (drop (length uri_open + length r + 1) (uri_open ++ r ++ quote :: post))
    with post.
  - eapply ins_sublist, (replace_from_ins _ _ _ uri_matcher_inserting (length post)). done.
  - rewrite <- Nat.add_assoc, drop_app_add' by done.
    rewrite (drop_app_add' r) by done. done.
Qed.

(** The attribute rule through the three passes. *)
Lemma rewrite_attribute (pre r post : text) :
  no_quote r -> no_terminator r -> has_ext ext_mp4 r = true ->
  exists pre' post',
    rewrite (pre ++ uri_open ++ r ++ quote :: post)
    = pre' ++ uri_open ++ proxy_base ++ r ++ quote :: post'
    /\ sublist pre pre' /\ sublist post post'.
Proof.
  intros Hq Ht He. unfold rewrite.
  assert (Hquote : no_terminator [quote]) by (by repeat constructor).
  destruct (ins_chunk _ _ _ _ _ (replace_ts_ins (pre ++ uri_open ++ r ++ quote :: post))
              pre (uri_open ++ r ++ [quote]) post)
    as (A1 & C1 & -> & HA1 & HC1).
  { by rewrite <- !app_assoc. }
  { apply no_terminator_start. apply Forall_app. split; [apply uri_open_no_terminator|].
    by apply Forall_app. }
  rewrite <- !app_assoc. cbn [app].
  destruct (replace_uri_attribute A1 r C1 Hq He) as (A2 & C2 & -> & HA2 & HC2).
  destruct (ins_chunk _ _ _ _ _
              (replace_mp4_ins (A2 ++ uri_open ++ proxy_base ++ r ++ quote :: C2))
              A2 (uri_open ++ proxy_base ++ r ++ [quote]) C2)
    as (A3 & C3 & -> & HA3 & HC3).
  { by rewrite <- !app_assoc. }
  { apply no_terminator_start. apply Forall_app. split; [apply uri_open_no_terminator|].
    apply Forall_app. split; [apply base_word_no_terminator; by right|].
    by apply Forall_app. }
  exists A3, C3. rewrite <- !app_assoc. cbn [app].
  split; [done|]. split.
  - trans A1; [done|]. by trans A2.
  - trans C1; [done|]. by trans C2.
Qed.




(** The scenario of the specification. *)
Example rewrite_scenario :
  rewrite (cu ("segment1.ts" ++ nl ++ "#EXT-X-MAP:URI=" ++ dq ++ "init.mp4" ++ dq ++ nl ++ "part0.mp4"))
  = cu ("https://barbarian.men/macaw45/videos/segment1.ts" ++ nl ++
        "#EXT-X-MAP:URI=" ++ dq ++ "/api/mp4/init.mp4" ++ dq ++ nl ++ "/api/mp4/part0.mp4").
Proof. vm_compute. reflexivity. Qed.

End RewriteFacts.

(** ** Duration *)

Module DurationFacts.
Import Duration DurationSpec.

Lemma fold_step_no_directive (lines : list text) (acc : number) :
  Forall (fun line => startsWith extinf line = false) lines ->
  fold_left step lines acc = acc.
Proof.
  intros H; revert acc.
  induction H as [|line lines Hl _ IH]; intros acc; [reflexivity|].
  cbn [fold_left]. unfold step at 2. rewrite Hl. apply IH.
Qed.

(** C3, as the code has it: a manifest without any [#EXTINF:] line that
    was fetched with a 2xx status gives the integer 0; the function
    answers [null] only when the fetch fails or is not 2xx. *)
Theorem no_directive_gives_zero (status : Z) (m3u8Content : text) :
  Fetch.ok status = true ->
  no_directive m3u8Content ->
  getVideoDuration (Fetch.Response status m3u8Content) = Seconds 0.
Proof.
  intros Hok Hno. unfold getVideoDuration. rewrite Hok.
  unfold roundedDuration, totalDuration.
  rewrite (fold_step_no_directive _ _ Hno). reflexivity.
Qed.

Lemma no_directive_gives_zero_witness :
  getVideoDuration (Fetch.Response 200 (cu "#EXTM3U")) = Seconds 0.
Proof.
  apply no_directive_gives_zero; [reflexivity|].
  unfold no_directive. vm_compute. repeat constructor.
Defined.

(** C3 as stated fails: a fetched manifest without directives does not
    give "absent". *)
Lemma no_directive_not_absent :
  no_directive (cu "#EXTM3U")
  /\ getVideoDuration (Fetch.Response 200 (cu "#EXTM3U")) <> Null.
Proof.
  split.
  - unfold no_directive. vm_compute. repeat constructor.
  - vm_compute. discriminate.
Qed.

(** C6 at the failing input: the directive values 4.0, [.] and 2.5. The
    lone dot passes [[0-9.]+], [parseFloat] makes it NaN, and the sum and
    the result are NaN instead of the 7 that skipping it would give. *)
Theorem dot_value_poisons_sum :
  roundedDuration
    (cu ("#EXTINF:4.0," ++ nl ++ "#EXTINF:.," ++ nl ++ "#EXTINF:2.5,"))
  = NotANumber
  /\ roundedDuration (cu ("#EXTINF:4.0," ++ nl ++ "#EXTINF:2.5,")) = Seconds 7.
Proof. split; vm_compute; reflexivity. Qed.

(** The scenario of C6: 4.0, 4.0 and 2.5 give 11. *)
Example duration_scenario :
  roundedDuration
    (cu ("#EXTM3U" ++ nl ++ "#EXTINF:4.0," ++ nl ++ "a.ts" ++ nl ++ "#EXTINF:4.0," ++ nl ++
         "b.ts" ++ nl ++ "#EXTINF:2.5," ++ nl ++ "c.ts"))
  = Seconds 11.
Proof. vm_compute. reflexivity. Qed.

Example duration_none :
  roundedDuration (cu ("#EXTM3U" ++ nl ++ "a.ts")) = Seconds 0.
Proof. vm_compute. reflexivity. Qed.

End DurationFacts.

(** ** Container proxy *)

Module Mp4Facts.
Import Mp4 Mp4Spec.

Section WithBody.
Context {B : Type}.
Implicit Types (fetch : upstream B) (h : gmap string string) (b : B).

Lemma copy_header_other h name Name res k :
  k <> Name -> copy_header h name Name res !! k = res !! k.
Proof.
  intros Hne. unfold copy_header.
  destruct (h !! name) as [v|]; [|reflexivity].
  destruct (truthy (Some v)); [|reflexivity].
  by rewrite lookup_insert_ne.
Qed.

(** C4, as the code has it: on a 2xx upstream response the status is
    relayed as it is, and a Content-Range value that is not the empty
    string is relayed as it is. *)
Theorem range_passthrough range fetch st h b v :
  fetch (request_headers range) = Fetch.Response st (h, b) ->
  Fetch.ok st = true ->
  h !! "content-range" = Some v ->
  v <> EmptyString ->
  status (handler range fetch) = st
  /\ headers (handler range fetch) !! "Content-Range" = Some v
  /\ content (handler range fetch) = Piped b.
Proof.
  intros Hf Hok Hh Hv. unfold handler. rewrite Hf, Hok. cbn.
  split; [reflexivity|]. split; [|reflexivity].
  do 3 (rewrite lookup_insert_ne by discriminate).
  rewrite copy_header_other by discriminate.
  unfold copy_header. rewrite Hh.
  destruct v; [congruence|]. cbn. by rewrite lookup_insert_eq.
Qed.

(** The status half of C4 needs nothing of the headers. *)
Lemma status_passthrough range fetch st h b :
  fetch (request_headers range) = Fetch.Response st (h, b) ->
  Fetch.ok st = true ->
  status (handler range fetch) = st.
Proof. intros Hf Hok. unfold handler. by rewrite Hf, Hok. Qed.
End WithBody.

Lemma range_passthrough_witness :
  status (handler (Some "bytes=1000-1999") upstream_206) = 206%Z
  /\ headers (handler (Some "bytes=1000-1999") upstream_206) !! "Content-Range"
     = Some "bytes 1000-1999/50000"
  /\ content (handler (Some "bytes=1000-1999") upstream_206) = Piped tt.
Proof.
  apply (range_passthrough (Some "bytes=1000-1999") upstream_206 206
           {[ "content-range" := "bytes 1000-1999/50000" ]} tt
           "bytes 1000-1999/50000").
  - reflexivity.
  - reflexivity.
  - apply lookup_singleton_eq.
  - discriminate.
Defined.

(** C4 as stated fails: upstream supplies a Content-Range header whose
    value is the empty string, and the proxy emits none. *)
Lemma empty_content_range_dropped :
  (exists v, ({[ "content-range" := EmptyString ]} : gmap string string)
             !! "content-range" = Some v)
  /\ headers (handler (Some "bytes=0-") upstream_empty_range) !! "Content-Range" = None.
Proof.
  split.
  - exists EmptyString. apply lookup_singleton_eq.
  - vm_compute. reflexivity.
Qed.

End Mp4Facts.

(** ** Stable sorting *)

Module SortFacts.
Import JsArray.

Lemma strongly_sorted_weaken {A : Type} (R R' : A -> A -> Prop) (l : list A) :
  (forall a b, R a b -> R' a b) -> StronglySorted R l -> StronglySorted R' l.
Proof.
  intros HR. induction 1 as [|x l _ IH Hx]; constructor; [done|].
  eapply Forall_impl; [exact Hx|]. intros y. apply HR.
Qed.

Section Sort.
Context {A : Type} (cmp : A -> A -> comparison).

#[local] Abbreviation le := (JsArray.le cmp).

Hypothesis le_total : forall x y, cmp x y = Gt -> le y x.
Hypothesis le_trans : forall x y z, le x y -> le y z -> le x z.

Lemma insert_perm (x : A) (l : list A) : Permutation (x :: l) (insert cmp x l).
Proof.
  induction l as [|y l IH]; cbn; [reflexivity|].
  destruct (cmp x y); try reflexivity.
  rewrite perm_swap. by constructor.
Qed.

Lemma sort_perm (l : list A) : Permutation l (sort cmp l).
Proof.
  induction l as [|x l IH]; cbn; [reflexivity|].
  rewrite <- insert_perm. by constructor.
Qed.

Lemma insert_sorted (x : A) (l : list A) :
  StronglySorted le l -> StronglySorted le (insert cmp x l).
Proof.
  induction 1 as [|y l Hs IH Hy]; cbn.
  - repeat constructor.
  - destruct (cmp x y) eqn:E.
    + constructor; [by constructor|].
      assert (Hxy : le x y) by (unfold JsArray.le; congruence).
      constructor; [done|].
      eapply Forall_impl; [exact Hy|]. intros z Hz. by eapply le_trans.
    + constructor; [by constructor|].
      assert (Hxy : le x y) by (unfold JsArray.le; congruence).
      constructor; [done|].
      eapply Forall_impl; [exact Hy|]. intros z Hz. by eapply le_trans.
    + constructor; [done|].
      rewrite <- insert_perm. constructor; [by apply le_total | done].
Qed.

Lemma sort_sorted (l : list A) : StronglySorted le (sort cmp l).
Proof.
  induction l as [|x l IH]; cbn; [constructor|]. by apply insert_sorted.
Qed.

(** Stability: a class of elements no two of which the comparator puts
    in the order [Gt] keeps its order. *)
Section Stable.
Variable P : A -> bool.
Hypothesis P_tied : forall x y, P x = true -> P y = true -> cmp x y <> Gt.

Lemma insert_filter (x : A) (l : list A) :
  List.filter P (insert cmp x l) = List.filter P (x :: l).
Proof.
  induction l as [|y l IH]; [reflexivity|].
  cbn [insert]. destruct (cmp x y) eqn:E; try reflexivity.
  cbn [List.filter] in *. rewrite IH.
  destruct (P x) eqn:Px, (P y) eqn:Py; try reflexivity.
  exfalso. by apply (P_tied x y).
Qed.

Lemma sort_filter (l : list A) :
  List.filter P (sort cmp l) = List.filter P l.
Proof.
  induction l as [|x l IH]; [reflexivity|].
  cbn [sort foldr]. rewrite insert_filter. cbn [List.filter].
  fold (sort cmp l). by rewrite IH.
Qed.
End Stable.
End Sort.

End SortFacts.

(** ** Chat range *)

Module ChatFacts.
Import Chat ChatSpec.

Lemma compare_messages_le (a b : stamped) :
  JsArray.le compare_messages a b <-> key_le a b.
Proof.
  unfold JsArray.le, compare_messages, key_le.
  destruct (Z.eqb_spec (video_timestamp a) (video_timestamp b)) as [E|E]; cbn.
  - rewrite <- Qle_alt. split; [intros H; right; by split|].
    intros [H|[_ H]]; [lia|done].
  - rewrite Z.compare_gt_iff. split; [intros H; left; lia|].
    intros [H|[H _]]; [lia|done].
Qed.

Lemma key_le_total (a b : stamped) :
  compare_messages a b = Gt -> JsArray.le compare_messages b a.
Proof.
  intros H. apply compare_messages_le. revert H.
  unfold compare_messages, key_le.
  destruct (Z.eqb_spec (video_timestamp a) (video_timestamp b)) as [E|E]; cbn.
  - intros H. right. split; [done|]. apply Qlt_le_weak. by apply Qgt_alt.
  - rewrite Z.compare_gt_iff. intros H. left. lia.
Qed.

Lemma key_le_trans (a b c : stamped) :
  JsArray.le compare_messages a b -> JsArray.le compare_messages b c ->
  JsArray.le compare_messages a c.
Proof.
  rewrite !compare_messages_le. unfold key_le.
  intros [H1|[H1 H1']] [H2|[H2 H2']].
  - left; lia.
  - left; lia.
  - left; lia.
  - right. split; [lia|]. by eapply Qle_trans.
Qed.

Lemma same_key_tied (a x y : stamped) :
  same_key a x = true -> same_key a y = true -> compare_messages x y <> Gt.
Proof.
  unfold same_key. rewrite !andb_true_iff, !Z.eqb_eq, !Qeq_bool_iff.
  intros [Hx Hx'] [Hy Hy']. apply compare_messages_le. right.
  split; [lia|]. rewrite <- Hx', <- Hy'. apply Qle_refl.
Qed.

Lemma loop_enough (upstream : Z -> shard) (fuel : nat) :
  forall (t end_ : Z) (st : state),
    (Z.to_nat (end_ - t + 1) <= fuel)%nat ->
    loop fuel upstream t end_ st
    = Some (foldl (fun st t => fetch_second upstream t st) st
              (seqZ t (end_ - t + 1))).
Proof.
  induction fuel as [|fuel IH]; intros t end_ st Hf.
  - cbn. destruct (Z.leb_spec t end_) as [H|H]; [lia|].
    rewrite seqZ_nil by lia. reflexivity.
  - cbn. destruct (Z.leb_spec t end_) as [H|H].
    + rewrite IH by lia. rewrite (seqZ_cons t) by lia. cbn.
      do 3 f_equal. lia.
    + rewrite seqZ_nil by lia. reflexivity.
Qed.

Lemma fold_fetched (upstream : Z -> shard) (ts : list Z) (st : state) :
  fetched (foldl (fun st t => fetch_second upstream t st) st ts) = fetched st ++ ts.
Proof.
  revert st. induction ts as [|t ts IH]; intros st; cbn.
  - by rewrite app_nil_r.
  - rewrite IH. unfold fetch_second.
    destruct (upstream t) as [|status [ms|]]; cbn;
      try destruct (Fetch.ok status); cbn; by rewrite <- app_assoc.
Qed.

Lemma fetch_second_heal (upstream : Z -> shard) (t : Z) (st : state) :
  fetch_second (heal upstream) t st = fetch_second upstream t st.
Proof.
  unfold fetch_second, heal, failed.
  destruct (upstream t) as [|status [ms|]] eqn:E; cbn.
  - by rewrite app_nil_r; destruct st.
  - destruct (Fetch.ok status) eqn:Hok; cbn; [by rewrite Hok|].
    by rewrite app_nil_r; destruct st.
  - destruct (Fetch.ok status) eqn:Hok; cbn; [done|].
    by rewrite app_nil_r; destruct st.
Qed.

Lemma loop_heal (upstream : Z -> shard) (fuel : nat) :
  forall (t end_ : Z) (st : state),
    loop fuel (heal upstream) t end_ st = loop fuel upstream t end_ st.
Proof.
  induction fuel as [|fuel IH]; intros t end_ st; cbn; [done|].
  destruct (t <=? end_)%Z; [|done]. by rewrite fetch_second_heal, IH.
Qed.

Lemma fetch_range_enough (upstream : Z -> shard) (fuel : nat) (start end_ : option Z) :
  (enough_fuel start end_ <= fuel)%nat ->
  exists st, fetch_range fuel upstream start end_ = Some st.
Proof.
  intros Hf. destruct start as [s|], end_ as [e|]; cbn in *; eauto.
  rewrite loop_enough by done. eauto.
Qed.





(** The scenario of C7: seconds 41 and 43 answer with one message each
    and second 42 fails; the answer is the two messages, in order. *)
Example range_41_43 :
  handler 3 upstream_41_43 (Some 41%Z) (Some 43%Z)
  = Some {| status := 200;
            body := [ {| video_timestamp := 41;
                         msg := {| timestamp := Some (5 # 1); payload := "first" |} |};
                      {| video_timestamp := 43;
                         msg := {| timestamp := None; payload := "second" |} |} ];
            requests := [41; 42; 43]%Z |}.
Proof. reflexivity. Qed.

(** C10: a range whose start is after its end asks for no shard and is
    answered 200 with the empty array, whatever the fuel. *)
Theorem reversed_range_is_empty (upstream : Z -> shard) (fuel : nat) (s e : Z) :
  (e < s)%Z ->
  handler fuel upstream (Some s) (Some e)
  = Some {| status := 200; body := []; requests := [] |}.
Proof.
  intros H. unfold handler, fetch_range.
  destruct fuel; cbn; destruct (Z.leb_spec s e); try lia; reflexivity.
Qed.

Lemma reversed_range_is_empty_witness :
  handler 0 upstream_41_43 (Some 43%Z) (Some 41%Z)
  = Some {| status := 200; body := []; requests := [] |}.
Proof. apply (reversed_range_is_empty upstream_41_43 0 43 41). lia. Defined.

End ChatFacts.

(** ** Metadata sync *)

Module MetadataFacts.
Import Metadata MetadataSpec.

Section Sync.
Variable getVideoDuration : string -> Duration.duration.
Variable now : string.

Lemma missing_lookup (m : store) (k : string) :
  missing m k = true -> m !! k = None.
Proof. unfold missing. by destruct (m !! k). Qed.

Lemma visit_inv (file : store) (st st' : loop_state) (e : string * option video_data) :
  inv file st -> visit getVideoDuration now st e = Some st' -> inv file st'.
Proof.
  intros [Hk Hn Hw]. destruct e as [k [vd|]]; cbn; [|done].
  destruct (missing (localMetadata st) k) eqn:Hm; intros [= <-]; [|done].
  apply missing_lookup in Hm.
  assert (Hfresh : k ∉ (duration_calls st).*1).
  { intros Hin. destruct (Hw k Hin) as [_ [r Hr]]. congruence. }
  split; cbn.
  - intros k' r Hr. rewrite lookup_insert_ne; [by apply Hk|].
    intros ->. apply Hk in Hr. congruence.
  - rewrite fmap_app. cbn. apply NoDup_app. split; [done|].
    split; [|apply NoDup_singleton].
    intros x Hx Hx'. apply list_elem_of_singleton in Hx' as ->. done.
  - intros k'. rewrite fmap_app, elem_of_app. cbn.
    rewrite list_elem_of_singleton. intros [Hin| ->].
    + destruct (Hw k' Hin) as [Hf [r Hr]]. split; [done|].
      destruct (decide (k = k')) as [->|Hne].
      * rewrite lookup_insert_eq. eauto.
      * rewrite lookup_insert_ne by done. eauto.
    + split.
      * destruct (file !! k) as [r|] eqn:Hf; [|done].
        apply Hk in Hf. congruence.
      * rewrite lookup_insert_eq. eauto.
Qed.

Lemma visit_all_inv (file : store) (entries : list (string * option video_data)) :
  forall st, inv file st -> inv file (visit_all getVideoDuration now st entries).1.
Proof.
  induction entries as [|e es IH]; intros st Hi; cbn; [done|].
  destruct (visit getVideoDuration now st e) as [st'|] eqn:Hv; [|done].
  apply IH. by eapply visit_inv.
Qed.

Lemma inv_start (file : store) :
  inv file {| localMetadata := file; updated := false; duration_calls := [] |}.
Proof.
  split; cbn; [done|apply NoDup_nil_2|]. intros k Hk. by apply elem_of_nil in Hk.
Qed.

Lemma syncMetadata_spec (file : store)
    (remoteVideos : option (list (string * option video_data))) :
  let res := syncMetadata getVideoDuration now file remoteVideos in
  (forall k r, file !! k = Some r -> res.1 !! k = Some r)
  /\ NoDup res.2.*1
  /\ (forall k, k ∈ res.2.*1 -> file !! k = None).
Proof.
  destruct remoteVideos as [entries|]; cbn.
  - pose proof (visit_all_inv file entries _ (inv_start file)) as Hi.
    destruct (visit_all _ _ _ entries) as [st completed]. cbn in *.
    destruct Hi as [Hk Hn Hw]. split; [|split; [done|]].
    + destruct (completed && updated st); [done|by intros].
    + intros k Hin. by destruct (Hw k Hin).
  - split; [done|]. split; [apply NoDup_nil_2|].
    intros k Hk. by apply elem_of_nil in Hk.
Qed.
End Sync.

Lemma sync_run_spec (inputs : list sync_input) :
  forall file : store,
    (forall k r, file !! k = Some r -> (sync_run file inputs).1 !! k = Some r)
    /\ (forall k, k ∈ (sync_run file inputs).2.*1 -> file !! k = None).
Proof.
  induction inputs as [|i rest IH]; intros file; cbn.
  - split; [done|]. intros k Hk. by apply elem_of_nil in Hk.
  - pose proof (syncMetadata_spec (oracle i) (clock i) file (remote i)) as Hs.
    destruct (syncMetadata _ _ file (remote i)) as [file1 calls1]. cbn in Hs.
    destruct Hs as (Hk1 & _ & Hc1).
    destruct (IH file1) as [Hk2 Hc2].
    destruct (sync_run file1 rest) as [file2 calls2]. cbn in *.
    split; [by eauto|].
    intros k. rewrite fmap_app, elem_of_app. intros [Hin|Hin]; [by apply Hc1|].
    apply Hc2 in Hin. destruct (file !! k) as [r|] eqn:Hf; [|done].
    apply Hk1 in Hf. congruence.
Qed.


End MetadataFacts.

(** ** Chat range, continued *)

Module ChatRangeFacts.
Import Chat ChatSpec ChatRange ChatFacts.

Lemma fold_messages (upstream : Z -> shard) (ts : list Z) (st : state) :
  allMessages (foldl (fun st t => fetch_second upstream t st) st ts)
  = allMessages st ++ flat_map (collected upstream) ts.
Proof.
  revert st. induction ts as [|t ts IH]; intros st; cbn [foldl flat_map].
  - by rewrite app_nil_r.
  - rewrite IH, app_assoc. f_equal. unfold fetch_second, collected.
    destruct (upstream t) as [|status [ms|]]; cbn;
      try destruct (Fetch.ok status); cbn; by rewrite ?app_nil_r.
Qed.

Lemma handler_enough (upstream : Z -> shard) (fuel : nat) (s e : Z) :
  (enough_fuel (Some s) (Some e) <= fuel)%nat ->
  handler fuel upstream (Some s) (Some e)
  = Some {| status := 200;
            body := JsArray.sort compare_messages
                      (flat_map (collected upstream) (seqZ s (e - s + 1)));
            requests := seqZ s (e - s + 1) |}.
Proof.
  intros Hf. cbn in Hf. unfold handler, fetch_range.
  rewrite loop_enough by done. by rewrite fold_messages, fold_fetched.
Qed.

Lemma elem_of_collected (upstream : Z -> shard) (t : Z) (m : stamped) :
  m ∈ collected upstream t <-> video_timestamp m = t /\ delivered upstream t (msg m).
Proof.
  unfold collected, delivered. split.
  - destruct (upstream t) as [|status [ms|]] eqn:Eu; [by intros ?%elem_of_nil| |by intros ?%elem_of_nil].
    destruct (Fetch.ok status) eqn:Eok; [|by intros ?%elem_of_nil].
    intros Hm. apply list_elem_of_In, in_map_iff in Hm as (m0 & <- & Hm0). cbn.
    split; [done|]. exists status, ms. by rewrite <- list_elem_of_In in Hm0.
  - intros [<- (status & ms & -> & -> & Hm)]. apply list_elem_of_In, in_map_iff.
    exists (msg m). split; [by destruct m|]. by apply list_elem_of_In.
Qed.



Section SortApp.
Context {A : Type} (cmp : A -> A -> comparison).

Lemma insert_app (x : A) (a b : list A) :
  (forall y, y ∈ b -> cmp x y <> Gt) ->
  JsArray.insert cmp x (a ++ b) = JsArray.insert cmp x a ++ b.
Proof.
  intros Hb. induction a as [|y a IH]; cbn.
  - destruct b as [|y b]; [done|]. cbn.
    destruct (cmp x y) eqn:E; try done. exfalso. apply (Hb y); [left|done].
  - destruct (cmp x y); try done. by rewrite IH.
Qed.

Lemma sort_app (l1 l2 : list A) :
  (forall x y, x ∈ l1 -> y ∈ l2 -> cmp x y <> Gt) ->
  JsArray.sort cmp (l1 ++ l2) = JsArray.sort cmp l1 ++ JsArray.sort cmp l2.
Proof.
  intros H. induction l1 as [|x l1 IH]; [done|].
  cbn [app JsArray.sort foldr]. fold (JsArray.sort cmp (l1 ++ l2)).
  fold (JsArray.sort cmp l1). rewrite IH.
  - apply insert_app. intros y Hy.
    rewrite <- (SortFacts.sort_perm cmp) in Hy. apply H; [left|done].
  - intros x' y Hx' Hy. apply H; [by right|done].
Qed.
End SortApp.

Lemma collected_stamp (upstream : Z -> shard) (ts : list Z) (m : stamped) :
  m ∈ flat_map (collected upstream) ts -> video_timestamp m ∈ ts.
Proof.
  rewrite list_elem_of_In, in_flat_map. intros (t & Ht & Hm).
  apply list_elem_of_In in Ht, Hm. by apply elem_of_collected in Hm as [-> _].
Qed.



End ChatRangeFacts.

(** ** Metadata sync, continued *)

Module MetadataSyncFacts.
Import Metadata MetadataSpec MetadataSync MetadataFacts.

Lemma missing_spec (m : store) (k : string) :
  missing m k = true <-> m !! k = None /\ k ∉ inherited.
Proof.
  unfold missing. destruct (m !! k) as [r|].
  - split; [done|by intros [? _]].
  - rewrite negb_true_iff, bool_decide_eq_false. by split; [|intros [_ ?]].
Qed.

Section Sync.
Variable getVideoDuration : string -> Duration.duration.
Variable now : string.

Lemma visit_object (st : loop_state) (k : string) (vd : video_data) :
  visit getVideoDuration now st (k, Some vd)
  = Some (if missing (localMetadata st) k
          then {| localMetadata :=
                    <[ k := new_record getVideoDuration now k vd ]> (localMetadata st);
                  updated := true;
                  duration_calls := duration_calls st ++ [(k, actualVodId vd k)] |}
          else st).
Proof. cbn. by destruct (missing (localMetadata st) k). Qed.

Lemma visit_all_keeps (entries : list (string * option video_data)) (k : string) (r : record) :
  forall st, localMetadata st !! k = Some r ->
             localMetadata (visit_all getVideoDuration now st entries).1 !! k = Some r.
Proof.
  induction entries as [|[k' [vd|]] es IH]; intros st Hk; [done| |done].
  cbn [visit_all]. rewrite visit_object. apply IH.
  destruct (missing (localMetadata st) k') eqn:Hm; [|done]. cbn.
  apply missing_spec in Hm as [Hm _].
  rewrite lookup_insert_ne; [done|]. congruence.
Qed.

Lemma visit_all_calls (entries : list (string * option video_data)) (c : string * string) :
  forall st, c ∈ duration_calls st ->
             c ∈ duration_calls (visit_all getVideoDuration now st entries).1.
Proof.
  induction entries as [|[k' [vd|]] es IH]; intros st Hc; [done| |done].
  cbn [visit_all]. rewrite visit_object. apply IH.
  destruct (missing (localMetadata st) k'); [|done]. cbn.
  apply elem_of_app. by left.
Qed.

(** A loop that meets a [null] value does not run to its end. *)
Lemma visit_all_null (entries : list (string * option video_data)) (k : string) :
  (k, None) ∈ entries ->
  forall st, (visit_all getVideoDuration now st entries).2 = false.
Proof.
  induction entries as [|e es IH]; intros Hin st; [by apply elem_of_nil in Hin|].
  cbn [visit_all]. apply elem_of_cons in Hin as [<-|Hin]; [done|].
  destruct (visit getVideoDuration now st e); [by apply IH|done].
Qed.

Lemma visit_all_objects (entries : list (string * option video_data)) :
  all_objects entries ->
  forall st, (visit_all getVideoDuration now st entries).2 = true.
Proof.
  induction 1 as [|[k vd] es [v Hv] _ IH]; intros st; [done|].
  cbn in Hv. subst vd. cbn [visit_all]. rewrite visit_object. apply IH.
Qed.

Lemma visit_all_updated (entries : list (string * option video_data)) :
  forall st, updated st = true ->
             updated (visit_all getVideoDuration now st entries).1 = true.
Proof.
  induction entries as [|[k [vd|]] es IH]; intros st Hu; [done| |done].
  cbn [visit_all]. rewrite visit_object. apply IH.
  by destruct (missing (localMetadata st) k).
Qed.

(** While the flag is down the object is the one the loop started with. *)
Lemma visit_all_not_updated (entries : list (string * option video_data)) :
  forall st, updated (visit_all getVideoDuration now st entries).1 = false ->
             localMetadata (visit_all getVideoDuration now st entries).1
             = localMetadata st.
Proof.
  induction entries as [|[k [vd|]] es IH]; intros st Hu; [done| |done].
  cbn [visit_all] in *. rewrite visit_object in *.
  destruct (missing (localMetadata st) k); [|by apply IH].
  rewrite visit_all_updated in Hu; done.
Qed.

(** The store in the file after a sync whose loop ran to its end is the
    object the loop filled. *)
Lemma sync_completed (file : store) (entries : list (string * option video_data)) :
  all_objects entries ->
  syncMetadata getVideoDuration now file (Some entries)
  = (localMetadata (visit_all getVideoDuration now
                      {| localMetadata := file; updated := false; duration_calls := [] |}
                      entries).1,
     duration_calls (visit_all getVideoDuration now
                       {| localMetadata := file; updated := false; duration_calls := [] |}
                       entries).1).
Proof.
  intros Ho. unfold syncMetadata.
  pose proof (visit_all_objects entries Ho
                {| localMetadata := file; updated := false; duration_calls := [] |}) as Hc.
  pose proof (visit_all_not_updated entries
                {| localMetadata := file; updated := false; duration_calls := [] |}) as Hn.
  destruct (visit_all _ _ _ entries) as [st completed]. cbn in *. subst completed.
  cbn. destruct (updated st); [done|]. by rewrite Hn.
Qed.

Lemma visit_all_domain (entries : list (string * option video_data)) :
  all_objects entries ->
  forall st k,
    is_Some (localMetadata (visit_all getVideoDuration now st entries).1 !! k)
    <-> is_Some (localMetadata st !! k) \/ (k ∈ entries.*1 /\ k ∉ inherited).
Proof.
  induction 1 as [|[k' vd] es [v Hv] _ IH]; intros st k.
  - cbn. split; [by left|]. intros [?|[?%elem_of_nil _]]; done.
  - cbn in Hv. subst vd. cbn [visit_all]. rewrite visit_object, IH.
    cbn [fmap list_fmap fst]. rewrite elem_of_cons.
    destruct (missing (localMetadata st) k') eqn:Hm; cbn.
    + apply missing_spec in Hm as [Hm Hi]. rewrite lookup_insert_is_Some. 
      destruct (decide (k' = k)) as [->|Hne]; [tauto|]. 
      split; [intros [[?|[_ ?]]|[? ?]]|intros [?|[[?|?] ?]]]; try tauto; congruence.
    + destruct (decide (k = k')) as [->|Hne]; [|tauto].
      split; [tauto|]. intros [?|[_ Hi]]; [tauto|]. left.
      destruct (localMetadata st !! k') eqn:E; [done|].
      assert (missing (localMetadata st) k' = true) by (by apply missing_spec).
      congruence.
Qed.

Lemma visit_all_fixed (entries : list (string * option video_data)) (st : loop_state) :
  all_objects entries ->
  (forall k, k ∈ entries.*1 -> missing (localMetadata st) k = false) ->
  visit_all getVideoDuration now st entries = (st, true).
Proof.
  induction 1 as [|[k' vd] es [v Hv] _ IH]; intros Hk; [done|].
  cbn in Hv. subst vd. cbn [visit_all]. rewrite visit_object.
  rewrite (Hk k') by (cbn; left). apply IH. intros k Hin. apply Hk. cbn. by right.
Qed.

Lemma visit_all_new (entries : list (string * option video_data)) (k : string)
    (vd : video_data) :
  all_objects entries -> NoDup entries.*1 -> (k, Some vd) ∈ entries ->
  forall st,
    missing (localMetadata st) k = true ->
    localMetadata (visit_all getVideoDuration now st entries).1 !! k
    = Some (new_record getVideoDuration now k vd)
    /\ (k, actualVodId vd k) ∈ duration_calls (visit_all getVideoDuration now st entries).1.
Proof.
  induction 1 as [|[k' vd'] es [v Hv] Ho IH]; intros Hnd Hin st Hm.
  - by apply elem_of_nil in Hin.
  - cbn in Hv. subst vd'. cbn in Hnd. apply NoDup_cons in Hnd as [Hk' Hnd].
    cbn [visit_all]. rewrite visit_object.
    apply elem_of_cons in Hin as [[= <- <-]|Hin].
    + rewrite Hm. split.
      * apply visit_all_keeps. cbn. apply lookup_insert_eq.
      * apply visit_all_calls. cbn. apply elem_of_app. right. left.
    + assert (Hne : k' <> k).
      { intros ->. apply Hk'. apply list_elem_of_fmap. by exists (k, Some vd). }
      apply IH; [done|done|].
      destruct (missing (localMetadata st) k'); [|done]. cbn.
      apply missing_spec in Hm as [Hm Hi]. apply missing_spec.
      by rewrite lookup_insert_ne.
Qed.
End Sync.

(** X3: a sync that cannot read the index, or meets a [null] value in it,
    leaves the file as it was, whatever new videos the loop had already
    found. *)
Theorem sync_all_or_nothing (getVideoDuration : string -> Duration.duration)
    (now : string) (file : store)
    (remoteVideos : option (list (string * option video_data))) :
  (remoteVideos = None
   \/ exists entries k, remoteVideos = Some entries /\ (k, None) ∈ entries) ->
  (syncMetadata getVideoDuration now file remoteVideos).1 = file.
Proof.
  intros [->|(entries & k & -> & Hin)]; [done|]. unfold syncMetadata.
  pose proof (visit_all_null getVideoDuration now entries k Hin
                {| localMetadata := file; updated := false; duration_calls := [] |}) as Hc.
  destruct (visit_all _ _ _ entries) as [st completed]. cbn in *. by subst completed.
Qed.

Lemma sync_all_or_nothing_witness :
  (syncMetadata no_duration "2024-01-01" ∅ (Some index_broken)).1 = ∅.
Proof.
  apply sync_all_or_nothing. right. exists index_broken, "1".
  split; [reflexivity|]. right. left.
Defined.

Lemma sync_domain (getVideoDuration : string -> Duration.duration) (now : string)
    (file : store) (entries : list (string * option video_data)) (k : string) :
  all_objects entries ->
  is_Some ((syncMetadata getVideoDuration now file (Some entries)).1 !! k)
  <-> is_Some (file !! k) \/ (k ∈ entries.*1 /\ k ∉ inherited).
Proof.
  intros Ho. rewrite sync_completed by done. cbn [fst].
  by rewrite visit_all_domain.
Qed.

(** X4: after a sync whose index holds no [null], the store holds the
    keys it held and the keys of the index, but never a key of the index
    that names a property every object inherits. *)
Theorem sync_keys (getVideoDuration : string -> Duration.duration) (now : string)
    (file : store) (entries : list (string * option video_data)) (k : string) :
  all_objects entries ->
  is_Some ((syncMetadata getVideoDuration now file (Some entries)).1 !! k)
  <-> is_Some (file !! k) \/ (k ∈ entries.*1 /\ k ∉ inherited).
Proof.
  apply sync_domain.
Qed.

Lemma sync_keys_witness :
  is_Some ((syncMetadata no_duration "2024-01-01" ∅ (Some index_ab)).1 !! "1")
  <-> is_Some ((∅ : store) !! "1") \/ ("1" ∈ index_ab.*1 /\ "1" ∉ inherited).
Proof. apply sync_keys. unfold all_objects. repeat constructor; by eexists. Defined.







End MetadataSyncFacts.

(** ** The lines [getVideoDuration] counts *)

Module DurationLinesFacts.
Import Duration DurationLines StringFacts.

Lemma greedy_fails {R : Type} (p : N -> bool) (k : option N -> text -> option R) (s : text) :
  (forall prev' s', s' `suffix_of` s -> k prev' s' = None) ->
  forall prev, greedy p prev s k = None.
Proof.
  induction s as [|c s IH]; intros Hk prev; [done|].
  cbn. destruct (p c); [|done].
  rewrite IH by (intros q t Ht; apply Hk; by apply suffix_cons_r).
  apply Hk. by apply suffix_cons_r.
Qed.

(** A run of the class that ends before a code unit outside it: the
    first try is the whole run. *)
Lemma greedy_full {R : Type} (p : N -> bool) (k : option N -> text -> option R)
    (c : N) (rest : text) (x : R) (d : text) :
  d <> [] -> Forall (fun a => p a = true) d -> p c = false ->
  forall prev,
    k (prev_after prev d) (c :: rest) = Some x ->
    greedy p prev (d ++ c :: rest) k = Some x.
Proof.
  intros Hne Hd Hc. induction Hd as [|a d Ha Hd IH]; [done|]. intros prev Hk.
  cbn [app greedy]. rewrite Ha. destruct d as [|b d].
  - cbn [app greedy]. rewrite Hc. exact Hk.
  - rewrite (IH ltac:(done) (Some a)); [done|].
    by rewrite RegexFacts.prev_after_cons in Hk.
Qed.

Lemma exec_without_comma (prev : option N) (s : text) :
  comma ∉ s -> exec extinf_regex prev s = None.
Proof.
  intros Hs. unfold exec, extinf_regex. cbn [run].
  destruct (startsWith extinf s); [|done].
  apply greedy_fails. intros prev' s' Hsuf.
  destruct s' as [|c s']; [done|]. cbn [startsWith].
  destruct (N.eqb_spec comma c) as [<-|]; [|done].
  exfalso. apply Hs. destruct Hsuf as [pre Hpre].
  rewrite <- (take_drop (length extinf) s), Hpre.
  apply elem_of_app. right. apply elem_of_app. right. left.
Qed.

Lemma search_without_comma (s : text) :
  comma ∉ s -> forall prev, search extinf_regex prev s = None.
Proof.
  induction s as [|c s IH]; intros Hs prev; cbn [search];
    rewrite exec_without_comma by done; [done|].
  apply IH. intros H. apply Hs. by right.
Qed.

Lemma step_not_counted (line : text) (acc : number) :
  counted line = false -> step acc line = acc.
Proof.
  unfold counted, step. destruct (startsWith extinf line); [|done]. cbn.
  intros H. apply bool_decide_eq_false in H.
  by rewrite search_without_comma.
Qed.

Lemma search_directive (value rest : text) :
  digits_and_dots value ->
  search extinf_regex None (directive value rest) = Some (Some value).
Proof.
  intros [Hne Hv].
  assert (He : exists len, exec extinf_regex None (directive value rest)
                           = Some (len, Some value)).
  { unfold exec, extinf_regex, directive. cbn [run].
    rewrite startsWith_app, drop_app_length.
    eexists. apply greedy_full; [done|done|done|].
    cbn [startsWith]. rewrite N.eqb_refl. cbn [andb].
    rewrite !length_app. cbn [length].
    replace (length value + S (length rest) - S (length rest))%nat
      with (length value) by lia.
    rewrite take_app_length. reflexivity. }
  destruct He as [len He]. unfold directive in *.
  destruct (extinf ++ value ++ comma :: rest); cbn [search]; by rewrite He.
Qed.

Lemma step_directive (value rest : text) (acc : number) :
  digits_and_dots value ->
  step acc (directive value rest) = add acc (parseFloat value).
Proof.
  intros Hv. unfold step. rewrite search_directive by done.
  unfold directive. by rewrite startsWith_app.
Qed.

Lemma fold_step_filter (f : text -> bool) (lines : list text) :
  (forall line acc, f line = false -> step acc line = acc) ->
  forall acc, fold_left step lines acc = fold_left step (List.filter f lines) acc.
Proof.
  intros Hf. induction lines as [|line lines IH]; intros acc; [done|].
  cbn [fold_left List.filter]. destruct (f line) eqn:E.
  - cbn [fold_left]. apply IH.
  - rewrite (Hf _ _ E). apply IH.
Qed.

Lemma fold_digits_nonneg (ds : text) :
  Forall (fun c => is_digit c = true) ds ->
  forall acc : Z, (0 <= acc)%Z ->
    (0 <= fold_left (fun acc c => 10 * acc + (Z.of_N c - 48)) ds acc)%Z.
Proof.
  induction 1 as [|c ds Hc _ IH]; intros acc Hacc; [done|]. cbn [fold_left].
  apply IH. unfold is_digit in Hc. apply andb_true_iff in Hc as [Hc _].
  apply N.leb_le in Hc. lia.
Qed.

Lemma digits_value_nonneg (ds : text) :
  Forall (fun c => is_digit c = true) ds -> (0 <= digits_value ds)%Z.
Proof. intros H. by apply fold_digits_nonneg. Qed.

Lemma parseFloat_not_negative (s : text) : not_negative (parseFloat s).
Proof.
  unfold parseFloat.
  pose proof (digits_value_nonneg _ (span_all is_digit s)) as Hip.
  set (ip := span is_digit s) in *.
  set (fp := match drop (length ip) s with
             | c :: r => if c =? dot then span is_digit r else []
             | [] => []
             end).
  assert (Hfp : (0 <= digits_value fp)%Z).
  { apply digits_value_nonneg. unfold fp.
    destruct (drop (length ip) s) as [|c r]; [done|].
    destruct (c =? dot); [apply span_all|done]. }
  assert (H : (0 <= inject_Z (digits_value ip)
                    + (digits_value fp # 10 ^ Pos.of_nat (length fp)))%Q).
  { replace 0%Q with (0 + 0)%Q by reflexivity. apply Qplus_le_compat.
    - unfold Qle. cbn. lia.
    - unfold Qle. cbn. lia. }
  destruct ip, fp; done.
Qed.

Lemma add_not_negative (a b : number) :
  not_negative a -> not_negative b -> not_negative (add a b).
Proof.
  destruct a as [|x], b as [|y]; cbn; try done. intros Hx Hy.
  replace 0%Q with (0 + 0)%Q by reflexivity. by apply Qplus_le_compat.
Qed.

Lemma step_not_negative (acc : number) (line : text) :
  not_negative acc -> not_negative (step acc line).
Proof.
  intros Hacc. unfold step. destruct (startsWith extinf line); [|done].
  destruct (search extinf_regex None line) as [[m1|]|]; [| |done].
  - apply add_not_negative; [done|apply parseFloat_not_negative].
  - by destruct acc.
Qed.

Lemma totalDuration_not_negative (m3u8Content : text) :
  not_negative (totalDuration m3u8Content).
Proof.
  unfold totalDuration. generalize (split_on 10 m3u8Content). intros lines.
  assert (H : not_negative (Num 0)) by (cbn; apply Qle_refl).
  revert H. generalize (Num 0).
  induction lines as [|line lines IH]; intros acc Hacc; [done|].
  cbn [fold_left]. by apply IH, step_not_negative.
Qed.


(** X8: the duration depends only on the lines that start with the
    directive and hold a comma, in their order; every other line of the
    playlist could be anything, or be left out. *)
Theorem duration_reads_counted_lines (status : Z) (m3u8Content m3u8Content' : text) :
  List.filter counted (split_on 10 m3u8Content)
  = List.filter counted (split_on 10 m3u8Content') ->
  getVideoDuration (Fetch.Response status m3u8Content)
  = getVideoDuration (Fetch.Response status m3u8Content').
Proof.
  intros H. unfold getVideoDuration, roundedDuration, totalDuration.
  rewrite (fold_step_filter counted (split_on 10 m3u8Content))
    by (intros; by apply step_not_counted).
  rewrite (fold_step_filter counted (split_on 10 m3u8Content'))
    by (intros; by apply step_not_counted).
  by rewrite H.
Qed.

Lemma duration_reads_counted_lines_witness :
  getVideoDuration (Fetch.Response 200 playlist_ab)
  = getVideoDuration (Fetch.Response 200 playlist_ab_noise).
Proof. apply duration_reads_counted_lines. vm_compute. reflexivity. Defined.



Lemma step_nan (line : text) : step NaN line = NaN.
Proof.
  unfold step. destruct (startsWith extinf line); [|done].
  by destruct (search extinf_regex None line) as [[m1|]|].
Qed.

Lemma fold_step_nan (lines : list text) : fold_left step lines NaN = NaN.
Proof. induction lines as [|line lines IH]; [done|]. cbn. by rewrite step_nan. Qed.

Lemma add_nan (acc : number) : add acc NaN = NaN.
Proof. by destruct acc. Qed.

(** X19: one directive line whose value [parseFloat] cannot read makes
    the duration NaN, wherever the line stands and whatever the other
    lines hold. *)
Theorem nan_value_poisons (status : Z) (m3u8Content value rest : text) :
  Fetch.ok status = true ->
  directive value rest ∈ split_on 10 m3u8Content ->
  digits_and_dots value ->
  parseFloat value = NaN ->
  getVideoDuration (Fetch.Response status m3u8Content) = NotANumber.
Proof.
  intros Hok Hin Hv Hnan. unfold getVideoDuration. rewrite Hok.
  unfold roundedDuration, totalDuration.
  apply list_elem_of_split in Hin as (l1 & l2 & ->).
  rewrite fold_left_app. cbn [fold_left].
  by rewrite step_directive, Hnan, add_nan, fold_step_nan.
Qed.

Lemma nan_value_poisons_witness :
  getVideoDuration (Fetch.Response 200 playlist_dot) = NotANumber.
Proof.
  apply (nan_value_poisons 200 playlist_dot [dot] []).
  - reflexivity.
  - compute_done.
  - split; [discriminate|]. by repeat constructor.
  - reflexivity.
Defined.

End DurationLinesFacts.

(** ** Container proxy: headers and failures *)

Module Mp4HeadersFacts.
Import Mp4 Mp4Spec.

Section WithBody.
Context {B : Type}.
Implicit Types (fetch : upstream B) (h res : gmap string string) (b : B).

Lemma truthy_spec (v : string) : truthy (Some v) = true <-> v <> EmptyString.
Proof. by destruct v. Qed.

Lemma copy_header_set h name Name res v :
  res !! Name = None ->
  copy_header h name Name res !! Name = Some v
  <-> h !! name = Some v /\ v <> EmptyString.
Proof.
  intros Hres. unfold copy_header. destruct (h !! name) as [u|] eqn:E.
  - destruct (truthy (Some u)) eqn:Et.
    + rewrite lookup_insert_eq. apply truthy_spec in Et. intuition congruence.
    + rewrite Hres. split; [done|]. intros [[= ->] Hv].
      apply truthy_spec in Hv. congruence.
  - rewrite Hres. intuition congruence.
Qed.

Lemma copy_header_skip h name Name res k :
  k <> Name -> copy_header h name Name res !! k = res !! k.
Proof.
  intros Hne. unfold copy_header.
  destruct (h !! name) as [v|]; [|done].
  destruct (truthy (Some v)); [|done]. by rewrite lookup_insert_ne.
Qed.

(** X10: the headers the handler sets on a 2xx upstream answer are its
    own three and, of the upstream headers, Content-Range and
    Accept-Ranges when their value is not the empty string; no other
    upstream header is relayed, and the upstream Content-Type is not. *)
Theorem relayed_headers range fetch st h b (k v : string) :
  fetch (request_headers range) = Fetch.Response st (h, b) ->
  Fetch.ok st = true ->
  headers (handler range fetch) !! k = Some v
  <-> (k = "Content-Type" /\ v = "video/mp4")
      \/ (k = "Access-Control-Allow-Origin" /\ v = "*")
      \/ (k = "Cache-Control" /\ v = "public, max-age=3600")
      \/ (k = "Content-Range" /\ h !! "content-range" = Some v /\ v <> EmptyString)
      \/ (k = "Accept-Ranges" /\ h !! "accept-ranges" = Some v /\ v <> EmptyString).
Proof.
  intros Hf Hok. unfold handler. rewrite Hf, Hok. cbn [negb headers].
  destruct (decide (k = "Cache-Control")) as [->|H1].
  { rewrite lookup_insert_eq. intuition congruence. }
  rewrite lookup_insert_ne by done.
  destruct (decide (k = "Access-Control-Allow-Origin")) as [->|H2].
  { rewrite lookup_insert_eq. intuition congruence. }
  rewrite lookup_insert_ne by done.
  destruct (decide (k = "Content-Type")) as [->|H3].
  { rewrite lookup_insert_eq. intuition congruence. }
  rewrite lookup_insert_ne by done.
  destruct (decide (k = "Accept-Ranges")) as [->|H4].
  { rewrite copy_header_set.
    - intuition congruence.
    - by rewrite copy_header_skip, lookup_empty. }
  rewrite copy_header_skip by done.
  destruct (decide (k = "Content-Range")) as [->|H5].
  { rewrite copy_header_set by apply lookup_empty. intuition congruence. }
  rewrite copy_header_skip, lookup_empty by done. intuition congruence.
Qed.

(** X11: the body of the answer is the upstream body exactly when the
    status of the answer is 2xx, and then the status is the upstream
    status; every other answer is 404 or 500 with a text of the handler
    and none of its headers, so an upstream status outside 2xx never
    reaches the client. *)
Theorem piped_iff_ok range fetch :
  ((exists b, content (handler range fetch) = Piped b)
   <-> Fetch.ok (status (handler range fetch)) = true)
  /\ (forall b, content (handler range fetch) = Piped b ->
        exists h, fetch (request_headers range)
                  = Fetch.Response (status (handler range fetch)) (h, b))
  /\ (Fetch.ok (status (handler range fetch)) = false ->
        (status (handler range fetch) = 404%Z \/ status (handler range fetch) = 500%Z)
        /\ headers (handler range fetch) = ∅).
Proof.
  unfold handler. destruct (fetch (request_headers range)) as [|st [h b]].
  - cbn. split; [|split].
    + split; [by intros [b [=]]|done].
    + by intros b [=].
    + intros _. split; [by right|done].
  - destruct (Fetch.ok st) eqn:Hok; cbn.
    + split; [|split].
      * split; [done|]. by exists b.
      * intros b' [= <-]. by exists h.
      * congruence.
    + split; [|split].
      * split; [by intros [b' [=]]|done].
      * by intros b' [=].
      * intros _. split; [by left|done].
Qed.
End WithBody.

Lemma relayed_headers_witness :
  headers (handler (Some "bytes=1000-1999") upstream_206) !! "Content-Length" = Some "1000"
  <-> ("Content-Length" = "Content-Type" /\ "1000" = "video/mp4")
      \/ ("Content-Length" = "Access-Control-Allow-Origin" /\ "1000" = "*")
      \/ ("Content-Length" = "Cache-Control" /\ "1000" = "public, max-age=3600")
      \/ ("Content-Length" = "Content-Range"
          /\ ({[ "content-range" := "bytes 1000-1999/50000" ]} : gmap string string)
               !! "content-range" = Some "1000"
          /\ "1000" <> EmptyString)
      \/ ("Content-Length" = "Accept-Ranges"
          /\ ({[ "content-range" := "bytes 1000-1999/50000" ]} : gmap string string)
               !! "accept-ranges" = Some "1000"
          /\ "1000" <> EmptyString).
Proof.
  apply (relayed_headers (Some "bytes=1000-1999") upstream_206 206 _ tt);
    reflexivity.
Defined.

End Mp4HeadersFacts.

(** ** The id of a video *)

Module VideoFacts.
Import Video StringFacts.

Lemma ext_mp4_head : exists t, ext_mp4 = full_stop :: t.
Proof. by eexists. Qed.

Lemma v_eq : v = [118].
Proof. reflexivity. Qed.

Lemma no_stop_no_ext (s : text) : full_stop ∉ s -> endsWith ext_mp4 s = false.
Proof.
  intros Hs. destruct (endsWith ext_mp4 s) eqn:E; [|done].
  apply endsWith_spec in E as [t ->]. exfalso. apply Hs.
  destruct ext_mp4_head as [t' ->]. apply elem_of_app. right. left.
Qed.

(** The first occurrence is the one replaced. *)
Lemma replace_string_first (a t : text) :
  full_stop ∉ a -> replace_string ext_mp4 [] (a ++ ext_mp4 ++ t) = a ++ t.
Proof.
  induction a as [|c a IH]; intros Ha.
  - cbn [app]. destruct (ext_mp4 ++ t) eqn:E; cbn [replace_string];
      rewrite <- E, startsWith_app, drop_app_length; done.
  - cbn [app replace_string].
    assert (Hc : startsWith ext_mp4 (c :: a ++ ext_mp4 ++ t) = false).
    { destruct ext_mp4_head as [t' ->]. cbn [startsWith].
      destruct (N.eqb_spec full_stop c) as [<-|]; [|done].
      exfalso. apply Ha. left. }
    rewrite Hc. f_equal. apply IH. intros H. apply Ha. by right.
Qed.

Lemma not_v_app (id t : text) :
  startsWith v id = false -> startsWith v (id ++ ext_mp4 ++ t) = false.
Proof.
  destruct id as [|c id]; [intros _|].
  - destruct ext_mp4_head as [t' ->]. reflexivity.
  - rewrite v_eq. cbn [app startsWith]. by destruct (118 =? c).
Qed.

Lemma clean_plain (id : text) :
  startsWith v id = false -> full_stop ∉ id -> cleanVideoId id = id.
Proof.
  intros Hv Hs. unfold cleanVideoId. by rewrite Hv, no_stop_no_ext.
Qed.

Lemma clean_ext (id t : text) :
  startsWith v id = false -> full_stop ∉ id ->
  endsWith ext_mp4 (id ++ ext_mp4 ++ t) = true ->
  cleanVideoId (id ++ ext_mp4 ++ t) = id ++ t.
Proof.
  intros Hv Hs He. unfold cleanVideoId.
  rewrite not_v_app by done. rewrite He. by apply replace_string_first.
Qed.

(** One leading [v] goes, whatever follows it. *)
Lemma clean_strip_v (s : text) :
  cleanVideoId (v ++ s)
  = if endsWith ext_mp4 s then replace_string ext_mp4 [] s else s.
Proof.
  unfold cleanVideoId. rewrite startsWith_app, v_eq. cbn [app drop].
  by rewrite drop_0.
Qed.

Lemma ends_ext (s : text) : endsWith ext_mp4 (s ++ ext_mp4) = true.
Proof. apply endsWith_spec. by exists s. Qed.

Lemma clean_four (id : text) :
  startsWith v id = false -> full_stop ∉ id ->
  cleanVideoId id = id /\ cleanVideoId (v ++ id) = id
  /\ cleanVideoId (id ++ ext_mp4) = id /\ cleanVideoId (v ++ id ++ ext_mp4) = id.
Proof.
  intros Hv Hs. split; [by apply clean_plain|]. split; [|split].
  - by rewrite clean_strip_v, no_stop_no_ext.
  - rewrite <- (app_nil_r (id ++ ext_mp4)), <- app_assoc.
    rewrite clean_ext; [by rewrite app_nil_r|done|done|].
    rewrite app_nil_r. apply ends_ext.
  - rewrite clean_strip_v, ends_ext.
    rewrite <- (app_nil_r (id ++ ext_mp4)), <- app_assoc.
    rewrite replace_string_first by done. by rewrite app_nil_r.
Qed.

(** X12: an id that does not start with [v] and holds no full stop can
    be asked for as it is, with a [v] in front, with [.mp4] behind, or
    with both: the handler fetches the same playlist and gives the same
    answer. *)
Theorem video_id_spellings (id : text) (fetch : text -> Fetch.result text) :
  startsWith v id = false -> full_stop ∉ id ->
  url id = upstream_base ++ v ++ id ++ cu ".m3u8"
  /\ handler (v ++ id) fetch = handler id fetch
  /\ handler (id ++ ext_mp4) fetch = handler id fetch
  /\ handler (v ++ id ++ ext_mp4) fetch = handler id fetch.
Proof.
  intros Hv Hs. destruct (clean_four id Hv Hs) as (E0 & E1 & E2 & E3).
  unfold handler, url. by rewrite E0, E1, E2, E3.
Qed.

Lemma video_id_spellings_witness :
  url (cu "1001") = upstream_base ++ v ++ cu "1001" ++ cu ".m3u8"
  /\ handler (v ++ cu "1001") upstream_1001 = handler (cu "1001") upstream_1001
  /\ handler (cu "1001" ++ ext_mp4) upstream_1001 = handler (cu "1001") upstream_1001
  /\ handler (v ++ cu "1001" ++ ext_mp4) upstream_1001
     = handler (cu "1001") upstream_1001.
Proof. apply video_id_spellings; [reflexivity|compute_done]. Defined.

(** X13: the cleaning is one pass. Of two leading [v] one stays; and
    when the id ends in [.mp4] but holds an earlier [.mp4], it is the
    earlier one that goes and the ending stays. *)
Theorem clean_is_one_pass (a b : text) :
  full_stop ∉ a ->
  cleanVideoId (v ++ v ++ a) = v ++ a
  /\ (startsWith v a = false ->
      cleanVideoId (a ++ ext_mp4 ++ b ++ ext_mp4) = a ++ b ++ ext_mp4).
Proof.
  intros Hs. split.
  - rewrite clean_strip_v, no_stop_no_ext; [done|].
    rewrite v_eq. cbn [app]. intros H. apply elem_of_cons in H as [H|H]; [done|].
    by apply Hs.
  - intros Hv. apply clean_ext; [done|done|].
    rewrite !app_assoc. apply ends_ext.
Qed.

Lemma clean_is_one_pass_witness :
  cleanVideoId (v ++ v ++ cu "1001") = v ++ cu "1001"
  /\ (startsWith v (cu "1001") = false ->
      cleanVideoId (cu "1001" ++ ext_mp4 ++ cu "-720p" ++ ext_mp4)
      = cu "1001" ++ cu "-720p" ++ ext_mp4).
Proof. apply clean_is_one_pass. compute_done. Defined.

End VideoFacts.

(** ** The rewrite on a playlist without double quotes *)

Module RewriteLinesFacts.
Import RewriteSpec RewriteLines StringFacts RegexFacts RewriteFacts.

Lemma map_lines_compose (f g : text -> text) (x : text) :
  (forall l, no_terminator l -> no_terminator (f l)) ->
  map_lines g (map_lines f x) = map_lines (fun l => g (f l)) x.
Proof.
  intros Hf. unfold map_lines at 2 3.
  pose proof (split_at_wf x) as Hwf.
  destruct (split_at is_line_terminator x) as [l0 ls]. cbn [fst snd] in *.
  unfold map_lines. rewrite split_at_unlines by by apply map_wf.
  by rewrite List.map_map.
Qed.

Lemma map_lines_ext (f g : text -> text) (x : text) :
  (forall l, f l = g l) -> map_lines f x = map_lines g x.
Proof.
  intros H. unfold map_lines. destruct (split_at is_line_terminator x) as [l0 ls].
  rewrite H. f_equal. apply List.map_ext. intros cl. by rewrite H.
Qed.

Lemma two_passes_line (l : text) :
  line_out ext_mp4 proxy_base (line_out ext_ts upstream_base l) = rewrite_line l.
Proof.
  unfold rewrite_line. unfold line_out at 2.
  destruct (relative l) eqn:R; cbn [andb].
  - destruct (has_ext ext_ts l).
    + apply line_out_absolute, upstream_absolute.
    + unfold line_out. by rewrite R.
  - unfold line_out. by rewrite R.
Qed.

Lemma rewrite_line_line (l : text) : no_terminator l -> no_terminator (rewrite_line l).
Proof.
  intros Hl. rewrite <- two_passes_line.
  apply line_out_line; [by right|]. apply line_out_line; [by left|done].
Qed.

Lemma rewrite_line_fixed (l : text) : rewrite_line l = l <-> rewritable l = false.
Proof.
  unfold rewrite_line, rewritable. destruct (relative l); [|done]. cbn [andb].
  destruct (has_ext ext_ts l); cbn [orb].
  - split; [|done]. intros H. apply (f_equal length) in H.
    rewrite length_app in H. assert (length upstream_base = 37%nat) by reflexivity. lia.
  - destruct (has_ext ext_mp4 l); [|done].
    split; [|done]. intros H. apply (f_equal length) in H.
    rewrite length_app in H. assert (length proxy_base = 9%nat) by reflexivity. lia.
Qed.

Lemma rewrite_no_quote (x : text) : no_quote x -> rewrite x = map_lines rewrite_line x.
Proof.
  intros Hq. unfold rewrite.
  rewrite (replace_uri_no_quote (replace_ts x)).
  2:{ eapply ins_forall; [|apply replace_ts_ins|exact Hq].
      intros w Hw. by apply base_word_no_quote. }
  rewrite replace_mp4_closed, replace_ts_closed, !replace_line_exact.
  rewrite map_lines_compose by (intros l; apply line_out_line; by left).
  apply map_lines_ext, two_passes_line.
Qed.

(** X14: on a playlist without double quotes the rewrite works line by
    line and is known in full: a relative line that is some code units
    and [.ts] gets the upstream base in front, a relative line that is
    some code units and [.mp4] gets the proxy base in front, and every
    other line and every line terminator is as it was. *)
Theorem rewrite_without_quotes (x : text) :
  no_quote x ->
  rewrite x = map_lines rewrite_line x
  /\ lines (rewrite x) = List.map rewrite_line (lines x).
Proof.
  intros Hq. rewrite rewrite_no_quote by done. split; [done|].
  apply lines_map_lines, rewrite_line_line.
Qed.

Lemma rewrite_without_quotes_witness :
  rewrite segments_only = map_lines rewrite_line segments_only
  /\ lines (rewrite segments_only) = List.map rewrite_line (lines segments_only).
Proof. apply rewrite_without_quotes. unfold no_quote. compute_done. Defined.

(** X15: a playlist without double quotes comes out of the rewrite as it
    went in exactly when none of its lines is a relative line with one of
    the two extensions. *)
Theorem rewrite_changes_nothing (x : text) :
  no_quote x ->
  rewrite x = x <-> Forall (fun l => rewritable l = false) (lines x).
Proof.
  intros Hq. rewrite rewrite_no_quote by done. split.
  - intros H. apply (f_equal lines) in H.
    rewrite lines_map_lines in H by apply rewrite_line_line.
    induction (lines x) as [|l ls IH]; [done|].
    cbn in H. injection H as Hl Hls. constructor; [by apply rewrite_line_fixed|auto].
  - intros H. apply map_lines_fixed.
    eapply Forall_impl; [exact H|]. intros l. apply rewrite_line_fixed.
Qed.

Lemma rewrite_changes_nothing_witness :
  rewrite absolute_only = absolute_only
  <-> Forall (fun l => rewritable l = false) (lines absolute_only).
Proof. apply rewrite_changes_nothing. unfold no_quote. compute_done. Defined.

Lemma has_ext_app (ext b l : text) : has_ext ext l = true -> has_ext ext (b ++ l) = true.
Proof. intros H. induction b as [|c b IH]; [done|]. by apply has_ext_cons. Qed.

Lemma proxy_relative (l : text) : relative (proxy_base ++ l) = true.
Proof. reflexivity. Qed.

Lemma rewrite_line_twice (l : text) :
  rewrite_line (rewrite_line l) = rewrite_line l <-> container_line l = false.
Proof.
  unfold container_line. unfold rewrite_line at 2 3.
  destruct (relative l) eqn:R; cbn [andb].
  - destruct (has_ext ext_ts l) eqn:T.
    + assert (Hr : relative (upstream_base ++ l) = false)
        by (unfold relative; by rewrite upstream_absolute).
      unfold rewrite_line. rewrite Hr.
      split; [|done]. intros _. destruct (has_ext ext_mp4 l) eqn:M; [|done].
      apply ext_exclusive in M. congruence.
    + destruct (has_ext ext_mp4 l) eqn:M.
      * unfold rewrite_line. rewrite proxy_relative.
        rewrite (ext_exclusive (proxy_base ++ l)) by by apply has_ext_app.
        rewrite has_ext_app by done.
        split; [|done]. intros H. apply (f_equal length) in H.
        rewrite !length_app in H.
        assert (length proxy_base = 9%nat) by reflexivity. lia.
      * split; [done|]. intros _. unfold rewrite_line. by rewrite R, T, M.
  - split; [done|]. intros _. unfold rewrite_line. by rewrite R.
Qed.

Lemma map_lines_agree (f g : text -> text) (x : text) :
  Forall (fun l => f l = g l) (lines x) -> map_lines f x = map_lines g x.
Proof.
  rewrite lines_split_at. unfold map_lines.
  destruct (split_at is_line_terminator x) as [l0 ls]. cbn [fst snd].
  intros H. inversion H as [|? ? H0 Hls]; subst. rewrite H0. f_equal.
  clear H H0. induction ls as [|[c l] ls IH]; [done|].
  cbn in *. inversion Hls as [|? ? Hl Hls']; subst. by rewrite Hl, IH.
Qed.

Lemma rewrite_keeps_no_quote (x : text) : no_quote x -> no_quote (rewrite x).
Proof.
  intros Hq. unfold rewrite.
  assert (HW : forall w, base_word w -> Forall (fun c => (c =? quote) = false) w)
    by (intros w Hw; by apply base_word_no_quote).
  eapply ins_forall; [exact HW|apply replace_mp4_ins|].
  eapply ins_forall; [exact HW|apply replace_uri_ins|].
  eapply ins_forall; [exact HW|apply replace_ts_ins|exact Hq].
Qed.

(** X18: on a playlist without double quotes a second rewrite changes
    nothing exactly when no line is a relative line with the container
    extension; such a line gets the proxy base in front once more each
    time. *)
Theorem rewrite_twice (x : text) :
  no_quote x ->
  rewrite (rewrite x) = rewrite x
  <-> Forall (fun l => container_line l = false) (lines x).
Proof.
  intros Hq. rewrite (rewrite_no_quote (rewrite x)) by by apply rewrite_keeps_no_quote.
  rewrite rewrite_no_quote by done.
  rewrite map_lines_compose by apply rewrite_line_line. split.
  - intros H. apply (f_equal lines) in H.
    rewrite lines_map_lines in H
      by (intros l Hl; by apply rewrite_line_line, rewrite_line_line).
    rewrite lines_map_lines in H by apply rewrite_line_line.
    induction (lines x) as [|l ls IH]; [done|].
    cbn in H. injection H as Hl Hls. constructor; [by apply rewrite_line_twice|auto].
  - intros H. apply map_lines_agree.
    eapply Forall_impl; [exact H|]. intros l. apply rewrite_line_twice.
Qed.

Lemma rewrite_twice_witness :
  rewrite (rewrite container_only) = rewrite container_only
  <-> Forall (fun l => container_line l = false) (lines container_only).
Proof. apply rewrite_twice. unfold no_quote. compute_done. Defined.

End RewriteLinesFacts.

(** ** Loading the emote tables *)

Module EmotesFacts.
Import Emotes.

Section Load.
Context {V : Type}.
Implicit Types (t : tables V) (r : response V) (j : json V).

(** X16: the third-party table changes only when its own response is
    2xx with a body that parses, to that body; and then neither the
    first-party fetch nor the cheers fetch threw, and the first-party
    response, when 2xx, had a body that parsed to something other than
    [null]. *)
Theorem third_party_update r1 r2 r3 t :
  thirdPartyEmotes (loadEmoteMappings r1 r2 r3 t) <> thirdPartyEmotes t ->
  (exists s2, r2 = Fetch.Response s2 (Some (thirdPartyEmotes (loadEmoteMappings r1 r2 r3 t)))
              /\ Fetch.ok s2 = true)
  /\ ~ throws r1
  /\ r3 <> Fetch.NetworkError.
Proof.
  intros H. destruct r1 as [|s1 b1], r2 as [|s2 b2], r3 as [|s3 b3]; try done.
  unfold loadEmoteMappings, load_one, throws in *. cbn [fst snd] in *.
  destruct (Fetch.ok s1) eqn:H1, (Fetch.ok s2) eqn:H2, (Fetch.ok s3),
    b1 as [[|v1]|], b2 as [[|v2]|], b3 as [[|v3]|];
    cbn in *; try done;
    (split; [by exists s2|]); (split; [|done]);
    intros [? [?|?]]; congruence.
Qed.

(** X17: when one of the three fetches throws, or the first-party body
    does not parse, no table changes, whatever the other responses
    hold. *)
Theorem load_stopped_early r1 r2 r3 t :
  r1 = Fetch.NetworkError \/ r2 = Fetch.NetworkError \/ r3 = Fetch.NetworkError
  \/ (exists s1, r1 = Fetch.Response s1 None /\ Fetch.ok s1 = true) ->
  loadEmoteMappings r1 r2 r3 t = t.
Proof.
  intros [->|[->|[->|(s1 & -> & H1)]]].
  - done.
  - by destruct r1.
  - by destruct r1, r2.
  - unfold loadEmoteMappings. destruct r2 as [|s2 b2]; [done|].
    destruct r3 as [|s3 b3]; [done|]. unfold load_one. cbn. by rewrite H1.
Qed.
End Load.

Lemma third_party_update_witness :
  (exists s2, Fetch.Response 200 (Some (Value "{a:1}"))
              = Fetch.Response s2
                  (Some (thirdPartyEmotes
                           (loadEmoteMappings (Fetch.Response 404 None)
                              (Fetch.Response 200 (Some (Value "{a:1}")))
                              (Fetch.Response 200 None) empty_tables)))
              /\ Fetch.ok s2 = true)
  /\ ~ throws (Fetch.Response 404 (None : option (json string)))
  /\ Fetch.Response 200 (None : option (json string)) <> Fetch.NetworkError.
Proof. apply (third_party_update _ _ _ empty_tables). vm_compute. discriminate. Defined.

Lemma load_stopped_early_witness :
  loadEmoteMappings (Fetch.Response 200 (Some (Value "{a:1}")))
    (Fetch.Response 200 (Some (Value "{b:2}"))) Fetch.NetworkError empty_tables
  = empty_tables.
Proof. apply load_stopped_early. right. right. left. reflexivity. Defined.

End EmotesFacts.
